(** * Sankey visualizer: graph builder, layout overrides and link routing

    A shallow embedding of the layout-and-routing core of the
    sankey-visualizer repository:

    - [processData.processYearData] (utils/processData.ts): one data row
      to the fixed ten nodes and the value-weighted links;
    - [Diagram] (components/SankeyDiagram.tsx): the initial layout
      effect, the save handler and the routing computation [routedGraph].

    Numbers.  The source computes on JavaScript numbers.  They are
    modelled by exact rationals [Q]: the code under study only negates,
    adds, subtracts, halves, compares and takes [min]/[max], and a number
    literal stands for the rational it denotes.  Equality of two numbers
    is [Qeq] where the source compares them ([x || 0] tests [x] against
    zero), and Leibniz equality where a value is stored unchanged. *)

From Stdlib Require Import QArith Qminmax Qabs Lqa Lia Sorted.
From stdpp Require Import gmap strings list.

Local Open Scope Q_scope.

(** ** JavaScript operators on numbers *)

Module JS.

(** [a < b] on numbers. *)
Definition lt (a b : Q) : bool := negb (Qle_bool b a).

(** [a > b] on numbers. *)
Definition gt (a b : Q) : bool := lt b a.

(** Truthiness of an optional number: [undefined] and [0] are falsy. *)
Definition truthy (v : option Q) : bool :=
  match v with
  | Some q => negb (Qeq_bool q 0)
  | None => false
  end.

(** [a || b] where both operands may be [undefined]. *)
Definition or (a b : option Q) : option Q :=
  if truthy a then a else b.

(** [a || d] with a number literal [d] on the right. *)
Definition or_num (a : option Q) (d : Q) : Q :=
  match a with
  | Some q => if Qeq_bool q 0 then d else q
  | None => d
  end.

(** [a || d] on a number that is always present. *)
Definition or_def (a d : Q) : Q :=
  if Qeq_bool a 0 then d else a.

(** [Array.prototype.sort(cmp)].  The sort is stable and, for a
    comparator that is a consistent ordering, returns the elements in
    ascending order: an element goes before the first later element
    [b] with [cmp a b <= 0]. *)
Fixpoint sort_insert {A : Type} (cmp : A -> A -> Q) (a : A) (l : list A) : list A :=
  match l with
  | [] => [a]
  | b :: r => if Qle_bool (cmp a b) 0 then a :: b :: r else b :: sort_insert cmp a r
  end.

Fixpoint sort {A : Type} (cmp : A -> A -> Q) (l : list A) : list A :=
  match l with
  | [] => []
  | a :: r => sort_insert cmp a (sort cmp r)
  end.

End JS.

(** ** utils/processData.ts *)

Module processData.

Inductive Category := process | trade_node | loss_node | end_of_life.
Inductive LinkType := domestic | trade | loss.

(** The objects [processYearData] creates carry these fields only. *)
Record SankeyNode := mkNode {
  name : string;
  id : string;
  category : Category
}.

Record SankeyLink := mkLink {
  source : nat;
  target : nat;
  value : Q;
  realValue : Q;
  type : LinkType
}.

Record GraphData := mkGraph {
  nodes : list SankeyNode;
  links : list SankeyLink
}.

(** A data row: a JavaScript object read by column name.  An absent
    column reads as [undefined]. *)
Abbreviation NdDataRow := (gmap string Q).

(** [addLink], with the [links] array it pushes to passed explicitly. *)
Definition addLink (source target : nat) (value : Q) (type : LinkType)
    (forceVisible : bool) (links : list SankeyLink) : list SankeyLink :=
  let absValue := Qabs value in
  let realValue := absValue in
  let absValue :=
    if forceVisible && JS.lt absValue (1#4) then 1#4 else absValue in
  if JS.gt absValue (1#1000)
  then links ++ [mkLink source target absValue realValue type]
  else links.

Definition the_nodes : list SankeyNode :=
  [ mkNode "Ore" "ore" process;
    mkNode "Concentrate" "concentrate" process;
    mkNode "Metal" "metal" process;
    mkNode "NdFeB Magnet" "magnet" process;
    mkNode "Other Semi-products" "other_semi" process;
    mkNode "Wind Turbine" "wind_turbine" process;
    mkNode "Other Final Products" "other_final" process;
    mkNode "Loss" "loss" loss_node;
    mkNode "Export" "export" trade_node;
    mkNode "End of Life" "eol" end_of_life ].

Definition eolToLoss (row : NdDataRow) : Q :=
  JS.or_num (JS.or (row !! "end of life") (row !! "end of life to loss")) 0.

Definition otherSemiFlow (row : NdDataRow) : Q :=
  JS.or_num (row !! "domestic-other semi-products") 0.

Definition processYearData (row : NdDataRow) : GraphData :=
  let links := [] in
  (* 1. Ore Stage *)
  let links := addLink 0 1 (JS.or_num (row !! "domestic-ore") 0) domestic false links in
  (* 2. Concentrate Stage *)
  let exportConcentrate :=
    JS.or_num (row !! "trade-concentrate") 0 + JS.or_num (row !! "export-concentrate") 0 in
  let links := addLink 1 8 exportConcentrate trade false links in
  let links := addLink 1 7 (JS.or_num (row !! "loss-concentrate") 0) loss false links in
  let links := addLink 1 2 (JS.or_num (row !! "domestic-concentrate") 0) domestic false links in
  (* 3. Metal Stage *)
  let exportMetal :=
    JS.or_num (row !! "trade-metal") 0 + JS.or_num (row !! "export-metal") 0 in
  let links := addLink 2 8 exportMetal trade false links in
  let links := addLink 2 7 (JS.or_num (row !! "loss-metal") 0) loss false links in
  let links := addLink 2 3 (JS.or_num (row !! "domestic-metal") 0) domestic false links in
  let links := addLink 2 4 (otherSemiFlow row) domestic false links in
  (* 4. Semi-Products Stage *)
  let magnetEx := JS.or_num (row !! "permanent magnets-ex(kt)") 0 in
  let tradeMagnet := JS.or_num (row !! "trade-permenent magnets") 0 in
  let exportMagnet := JS.or_num (row !! "export-permenent magnets") 0 in
  let totalMagnetExport := magnetEx + tradeMagnet + exportMagnet in
  let links := addLink 3 8 totalMagnetExport trade false links in
  let links := addLink 3 7 (JS.or_num (row !! "loss-permenent magnets") 0) loss false links in
  let exportOtherSemi := JS.or_num (row !! "export-other semi-products") 0 in
  let links := addLink 4 8 exportOtherSemi trade false links in
  let links := addLink 3 5 (JS.or_num (row !! "domestic-permenent magnets") 0) domestic false links in
  let links := addLink 3 6 (JS.or_num (row !! "domestic-other finalproducts") 0) domestic false links in
  let links := addLink 4 6 (otherSemiFlow row) domestic false links in
  (* 5. Final Products Stage *)
  let exportWindTurbine :=
    JS.or_num (row !! "trade-wind turbine") 0 + JS.or_num (row !! "export-wind turbine") 0 in
  let links := addLink 5 8 exportWindTurbine trade false links in
  let exportOtherFinal := JS.or_num (row !! "export-other finalproducts") 0 in
  let links := addLink 6 8 exportOtherFinal trade false links in
  (* End of Life flows, force visible *)
  let links := addLink 5 9 (JS.or_num (row !! "Wind Turbine outflow") 0) domestic true links in
  let links := addLink 6 9 (JS.or_num (row !! "Others outflow") 0) domestic true links in
  let links := addLink 9 7 (eolToLoss row) loss true links in
  mkGraph the_nodes links.

(** The row of the first scenario. *)
Definition row_2020 : NdDataRow :=
  <["year" := 2020]> (<["domestic-ore" := 100]> ∅).

End processData.


(** ** components/SankeyDiagram.tsx *)

Module Diagram.

Export processData (Category, process, trade_node, loss_node, end_of_life,
                    LinkType, domestic, trade, loss).

Inductive Side := Top | Bottom | Left | Right.

(** An endpoint attachment record.  [{ ...l.sourceCoords, side }] on a
    link that was never routed has a side and no point yet. *)
Record Coords := mkCoords {
  x : option Q;
  y : option Q;
  side : Side
}.

(** A node object of the working graph.  The generic layout has set
    [index] and the four extents on every node it returns, which is what
    the source asserts with [node.x0!]. *)
Record SankeyNode := mkNode {
  id : string;
  name : string;
  category : Category;
  index : nat;
  x0 : Q;
  x1 : Q;
  y0 : Q;
  y1 : Q;
  isRotated : option bool
}.

(** A link object of the working graph.  [source] and [target] are the
    node objects the link refers to, with the extents the routing reads
    through those references. *)
Record SankeyLink := mkLink {
  source : SankeyNode;
  target : SankeyNode;
  value : Q;
  realValue : option Q;
  type : LinkType;
  width : option Q;
  sourceCoords : option Coords;
  targetCoords : option Coords
}.

Record Graph := mkGraph {
  nodes : list SankeyNode;
  links : list SankeyLink
}.

Record SavedLinkLayout := mkSavedLink {
  sourceOffset : option Q;
  targetOffset : option Q;
  sourceSide : option Side;
  targetSide : option Side
}.

Module SavedNodeLayout.
Record t := mk {
  x0 : Q;
  x1 : Q;
  y0 : Q;
  y1 : Q;
  isRotated : bool
}.
End SavedNodeLayout.

Module SavedLayoutMap.
Record t := mk {
  nodes : gmap string SavedNodeLayout.t;
  links : gmap string SavedLinkLayout
}.
End SavedLayoutMap.

Abbreviation LinkOffsets := (gmap string SavedLinkLayout).

Definition getLinkKey (link : SankeyLink) : string :=
  String.append (id (source link)) (String.append "-" (id (target link))).

Record Point := mkPoint { px : Q; py : Q }.

Definition getCenter (node : SankeyNode) : Point :=
  mkPoint ((x0 node + x1 node) / 2) ((y0 node + y1 node) / 2).

(** *** Link routing ([routedGraph]) *)

Inductive Direction := Outgoing | Incoming.

(** The eight bucket names: ['top'], ..., ['right'] are
    [(Outgoing, _)]; ['inTop'], ..., ['inRight'] are [(Incoming, _)]. *)
Definition BucketName : Type := Direction * Side.

(** [side.startsWith('in')] *)
Definition startsWith_in (b : BucketName) : bool :=
  match fst b with Incoming => true | Outgoing => false end.

(** [side.toLowerCase().includes('top') || side.toLowerCase().includes('bottom')] *)
Definition isHorizontalEdge (b : BucketName) : bool :=
  match snd b with Top | Bottom => true | Left | Right => false end.

(** The bucket object of one node, read by bucket name; each bucket is
    an array of references to link objects, here positions in
    [graph.links]. *)
Definition NodeBuckets : Type := BucketName -> list nat.

Definition emptyBuckets : NodeBuckets := fun _ => [].

Definition side_eqb (a b : Side) : bool :=
  match a, b with
  | Top, Top | Bottom, Bottom | Left, Left | Right, Right => true
  | _, _ => false
  end.

Definition dir_eqb (a b : Direction) : bool :=
  match a, b with
  | Outgoing, Outgoing | Incoming, Incoming => true
  | _, _ => false
  end.

Definition bucket_eqb (a b : BucketName) : bool :=
  dir_eqb (fst a) (fst b) && side_eqb (snd a) (snd b).

(** [buckets[b].push(k)] *)
Definition push (buckets : NodeBuckets) (b : BucketName) (k : nat) : NodeBuckets :=
  fun b' => if bucket_eqb b b' then buckets b' ++ [k] else buckets b'.

Definition savedSide (saved : option SavedLinkLayout)
    (f : SavedLinkLayout -> option Side) : option Side :=
  match saved with Some s => f s | None => None end.

Definition savedOffsetOf (saved : option SavedLinkLayout)
    (f : SavedLinkLayout -> option Q) : option Q :=
  match saved with Some s => f s | None => None end.

Definition sourceSideOf (linkOffsets : LinkOffsets) (l : SankeyLink) : Side :=
  let source := source l in
  let target := target l in
  let saved := linkOffsets !! getLinkKey l in
  let sW := x1 source - x0 source in
  let sH := y1 source - y0 source in
  let sourceIsHorizontal := JS.gt sW sH in
  let sC := getCenter source in
  let tC := getCenter target in
  match savedSide saved sourceSide with
  | Some s => s
  | None =>
      if sourceIsHorizontal
      then (if JS.gt (py tC) (py sC) then Bottom else Top)
      else (if JS.gt (px tC) (px sC) then Right else Left)
  end.

Definition targetSideOf (linkOffsets : LinkOffsets) (l : SankeyLink) : Side :=
  let source := source l in
  let target := target l in
  let saved := linkOffsets !! getLinkKey l in
  let tW := x1 target - x0 target in
  let tH := y1 target - y0 target in
  let targetIsHorizontal := JS.gt tW tH in
  let sC := getCenter source in
  let tC := getCenter target in
  match savedSide saved targetSide with
  | Some s => s
  | None =>
      if targetIsHorizontal
      then (if JS.gt (py sC) (py tC) then Bottom else Top)
      else (if JS.gt (px sC) (px tC) then Right else Left)
  end.

(** [{ ...c, side: s }] *)
Definition withSide (c : option Coords) (s : Side) : Coords :=
  match c with
  | Some c => mkCoords (x c) (y c) s
  | None => mkCoords None None s
  end.

Definition setSourceCoords (l : SankeyLink) (c : Coords) : SankeyLink :=
  mkLink (source l) (target l) (value l) (realValue l) (type l) (width l)
         (Some c) (targetCoords l).

Definition setTargetCoords (l : SankeyLink) (c : Coords) : SankeyLink :=
  mkLink (source l) (target l) (value l) (realValue l) (type l) (width l)
         (sourceCoords l) (Some c).

(** The state of the first loop: the bucket map (keys [0 .. n-1]) and
    the link objects. *)
Definition SidesState : Type := list NodeBuckets * list SankeyLink.

(** One iteration of [links.forEach] in "1. Determine Sides", on the
    link at position [k].  [nodeBuckets.get(i)] of a key that is not in
    the map is [undefined], and pushing to it throws: [None]. *)
Definition determineSide (linkOffsets : LinkOffsets) (st : SidesState)
    (k : nat) : option SidesState :=
  let '(nodeBuckets, links) := st in
  match links !! k with
  | None => None
  | Some l =>
      let sourceSide := sourceSideOf linkOffsets l in
      let targetSide := targetSideOf linkOffsets l in
      match nodeBuckets !! index (source l) with
      | None => None
      | Some b =>
          let nodeBuckets :=
            <[index (source l) := push b (Outgoing, sourceSide) k]> nodeBuckets in
          match nodeBuckets !! index (target l) with
          | None => None
          | Some b =>
              let nodeBuckets :=
                <[index (target l) := push b (Incoming, targetSide) k]> nodeBuckets in
              let l := setSourceCoords l (withSide (sourceCoords l) sourceSide) in
              let l := setTargetCoords l (withSide (targetCoords l) targetSide) in
              Some (nodeBuckets, <[k := l]> links)
          end
      end
  end.

Fixpoint determineSides (linkOffsets : LinkOffsets) (ks : list nat)
    (st : SidesState) : option SidesState :=
  match ks with
  | [] => Some st
  | k :: ks =>
      match determineSide linkOffsets st k with
      | None => None
      | Some st => determineSides linkOffsets ks st
      end
  end.

(** "2. Compute Coordinates" *)

(** [l.width || 1] *)
Definition linkWidth (l : SankeyLink) : Q := JS.or_num (width l) 1.

(** The comparator of the default sort, on two link objects. *)
Definition compareLinks (side : BucketName) (a b : SankeyLink) : Q :=
  let otherA := if startsWith_in side then source a else target a in
  let otherB := if startsWith_in side then source b else target b in
  let cA := getCenter otherA in
  let cB := getCenter otherB in
  if isHorizontalEdge side then px cA - px cB else py cA - py cB.

(** The same comparator on the references held by a bucket. *)
Definition compareRefs (links : list SankeyLink) (side : BucketName)
    (a b : nat) : Q :=
  match links !! a, links !! b with
  | Some la, Some lb => compareLinks side la lb
  | _, _ => 0
  end.

(** [manualPos]: the saved offset of the end this bucket attaches. *)
Definition manualPosOf (linkOffsets : LinkOffsets) (side : BucketName)
    (l : SankeyLink) : option Q :=
  let savedOffset := linkOffsets !! getLinkKey l in
  if startsWith_in side
  then savedOffsetOf savedOffset targetOffset
  else savedOffsetOf savedOffset sourceOffset.

(** [posOnEdge] after the clamp. *)
Definition posOnEdgeOf (linkOffsets : LinkOffsets) (side : BucketName)
    (edgeLength currentPos : Q) (l : SankeyLink) : Q :=
  let lw := linkWidth l in
  let posOnEdge :=
    match manualPosOf linkOffsets side l with
    | Some manualPos => manualPos - lw / 2
    | None => currentPos
    end in
  Qmax 0 (Qmin posOnEdge (edgeLength - lw)).

(** The point on the rectangle edge for the middle [mid] of a link. *)
Definition edgePoint (node : SankeyNode) (side : BucketName) (mid : Q) : Coords :=
  match snd side with
  | Right => mkCoords (Some (x1 node)) (Some (y0 node + mid)) Right
  | Left => mkCoords (Some (x0 node)) (Some (y0 node + mid)) Left
  | Bottom => mkCoords (Some (x0 node + mid)) (Some (y1 node)) Bottom
  | Top => mkCoords (Some (x0 node + mid)) (Some (y0 node)) Top
  end.

(** The body of [links.forEach] in [getCoords]: the state is the cursor
    [currentPos] and the link objects. *)
Definition placeLink (linkOffsets : LinkOffsets) (node : SankeyNode)
    (side : BucketName) (edgeLength : Q)
    (st : Q * list SankeyLink) (k : nat) : Q * list SankeyLink :=
  let '(currentPos, links) := st in
  match links !! k with
  | None => st
  | Some l =>
      let lw := linkWidth l in
      let posOnEdge := posOnEdgeOf linkOffsets side edgeLength currentPos l in
      let mid := posOnEdge + lw / 2 in
      let c := edgePoint node side mid in
      let l := if startsWith_in side then setTargetCoords l c
               else setSourceCoords l c in
      (currentPos + lw, <[k := l]> links)
  end.

Definition totalWidth (links : list SankeyLink) (bucket : list nat) : Q :=
  foldl (fun sum k =>
           match links !! k with
           | Some l => sum + linkWidth l
           | None => sum
           end) 0 bucket.

Definition edgeLengthOf (node : SankeyNode) (side : BucketName) : Q :=
  let nodeW := x1 node - x0 node in
  let nodeH := y1 node - y0 node in
  if isHorizontalEdge side then nodeW else nodeH.

Definition getCoords (linkOffsets : LinkOffsets) (node : SankeyNode)
    (bucket : list nat) (side : BucketName)
    (links : list SankeyLink) : list SankeyLink :=
  match bucket with
  | [] => links
  | _ =>
      let sorted := JS.sort (compareRefs links side) bucket in
      let totalValue := totalWidth links sorted in
      let edgeLength := edgeLengthOf node side in
      let currentPos := (edgeLength - totalValue) / 2 in
      let currentPos := Qmax 0 currentPos in
      snd (foldl (placeLink linkOffsets node side edgeLength)
                 (currentPos, links) sorted)
  end.

(** The body of the last [nodes.forEach], for node [n] at position [i]. *)
Definition routeNode (linkOffsets : LinkOffsets)
    (nodeBuckets : list NodeBuckets) (links : list SankeyLink)
    (i : nat) (n : SankeyNode) : list SankeyLink :=
  match nodeBuckets !! i with
  | None => links
  | Some b =>
      let links := getCoords linkOffsets n (b (Outgoing, Top)) (Outgoing, Top) links in
      let links := getCoords linkOffsets n (b (Outgoing, Bottom)) (Outgoing, Bottom) links in
      let links := getCoords linkOffsets n (b (Outgoing, Left)) (Outgoing, Left) links in
      let links := getCoords linkOffsets n (b (Outgoing, Right)) (Outgoing, Right) links in
      let links := getCoords linkOffsets n (b (Incoming, Top)) (Incoming, Top) links in
      let links := getCoords linkOffsets n (b (Incoming, Bottom)) (Incoming, Bottom) links in
      let links := getCoords linkOffsets n (b (Incoming, Left)) (Incoming, Left) links in
      let links := getCoords linkOffsets n (b (Incoming, Right)) (Incoming, Right) links in
      links
  end.

Fixpoint routeNodes (linkOffsets : LinkOffsets)
    (nodeBuckets : list NodeBuckets) (i : nat) (ns : list SankeyNode)
    (links : list SankeyLink) : list SankeyLink :=
  match ns with
  | [] => links
  | n :: ns =>
      routeNodes linkOffsets nodeBuckets (S i) ns
                 (routeNode linkOffsets nodeBuckets links i n)
  end.

(** The routing of a graph that is present.  [None]: the computation
    throws (a link whose endpoint has no bucket). *)
Definition route (linkOffsets : LinkOffsets) (graph : Graph) : option Graph :=
  let nodes := nodes graph in
  let links := links graph in
  let nodeBuckets := map (fun _ => emptyBuckets) nodes in
  match determineSides linkOffsets (seq 0 (length links)) (nodeBuckets, links) with
  | None => None
  | Some (nodeBuckets, links) =>
      Some (mkGraph nodes (routeNodes linkOffsets nodeBuckets 0 nodes links))
  end.

Inductive Routed :=
| RoutedNull
| RoutedGraph (g : Graph)
| RoutedThrows.

(** The value of the [routedGraph] memo for the states [graph] and
    [linkOffsets]. *)
Definition routedGraph (graph : option Graph) (linkOffsets : LinkOffsets) : Routed :=
  match graph with
  | None => RoutedNull
  | Some g =>
      match route linkOffsets g with
      | Some g' => RoutedGraph g'
      | None => RoutedThrows
      end
  end.

(** *** The initial layout effect and the save handler *)

Inductive Align := justify | align_left | align_right | center.

(** The cosmetic settings (fonts, colours, label switch) are read by
    the renderer only. *)
Record VisualizationSettings := mkSettings {
  nodeWidth : Q;
  nodePadding : Q;
  flowScale : Q;
  align : Align
}.

Inductive AlignMethod := sankeyLeft | sankeyRight | sankeyCenter | sankeyJustify.

(** What the effect configures the generic generator with. *)
Record GeneratorConfig := mkConfig {
  cfg_nodeWidth : Q;
  cfg_nodePadding : Q;
  cfg_nodeAlign : AlignMethod;
  cfg_extent : (Q * Q) * (Q * Q)
}.

(** The outcome of a call of the generic generator: the laid-out graph
    (its links refer to its own node objects), or an exception. *)
Inductive Generated :=
| Returns (generated : Graph)
| Raises (e : string).

(** The component state the effect acts on: the [graph] state and what
    was written to the console. *)
Record State := mkState {
  graph : option Graph;
  console : list string
}.

(** A [forEach] that assigns to fields of every node object of a
    graph.  The link endpoints are those same objects, so each of them
    shows the assignment as well. *)
Definition forEachNode (f : SankeyNode -> SankeyNode) (g : Graph) : Graph :=
  mkGraph (map f (nodes g))
          (map (fun l => mkLink (f (source l)) (f (target l)) (value l)
                                (realValue l) (type l) (width l)
                                (sourceCoords l) (targetCoords l))
               (links g)).

(** "APPLY SAVED NODE LAYOUT", the body of the loop. *)
Definition applySaved (savedNodes : gmap string SavedNodeLayout.t)
    (node : SankeyNode) : SankeyNode :=
  match savedNodes !! id node with
  | Some saved =>
      mkNode (id node) (name node) (category node) (index node)
             (SavedNodeLayout.x0 saved) (SavedNodeLayout.x1 saved)
             (SavedNodeLayout.y0 saved) (SavedNodeLayout.y1 saved)
             (Some (SavedNodeLayout.isRotated saved))
  | None => node
  end.

Definition place (node : SankeyNode) (nx0 nx1 ny0 ny1 : Q)
    (rot : option bool) : SankeyNode :=
  mkNode (id node) (name node) (category node) (index node) nx0 nx1 ny0 ny1 rot.

Section Layout.

(** The generic flow-layout library (d3-sankey) and the canvas size. *)
Variable sankeyGenerator : GeneratorConfig -> processData.GraphData -> Generated.
Variables width height : Q.

(** "APPLY CUSTOM DEFAULT LAYOUT", the body of the loop. *)
Definition defaultLayout (node : SankeyNode) : SankeyNode :=
  let topBarY := 20 in
  let topBarHeight := 20 in
  let bottomBarY := height - 40 in
  let bottomBarHeight := 20 in
  let w := x1 node - x0 node in
  let h := y1 node - y0 node in
  if String.eqb (id node) "export" then
    place node (width / 2) (width - 100) topBarY (topBarY + topBarHeight) (Some true)
  else if String.eqb (id node) "loss" then
    place node 100 (width - 100) bottomBarY (bottomBarY + bottomBarHeight) (Some true)
  else if String.eqb (id node) "eol" then
    let centerY := height / 2 in
    place node 1050 (1050 + w) centerY (centerY + h) (isRotated node)
  else
    let centerY := height / 2 in
    let halfH := h / 2 in
    if String.eqb (id node) "ore" then
      place node 50 (50 + w) (centerY - halfH) (centerY + halfH) (isRotated node)
    else if String.eqb (id node) "concentrate" then
      place node 250 (250 + w) (centerY - halfH) (centerY + halfH) (isRotated node)
    else if String.eqb (id node) "metal" then
      place node 450 (450 + w) (centerY - halfH) (centerY + halfH) (isRotated node)
    else if String.eqb (id node) "magnet" then
      place node 650 (650 + w) (centerY - halfH - 50) (centerY + halfH - 50) (isRotated node)
    else if String.eqb (id node) "other_semi" then
      place node 650 (650 + w) (centerY - halfH + 80) (centerY + halfH + 80) (isRotated node)
    else if String.eqb (id node) "wind_turbine" then
      place node 900 (900 + w) (centerY - halfH - 50) (centerY + halfH - 50) (isRotated node)
    else if String.eqb (id node) "other_final" then
      place node 900 (900 + w) (centerY - halfH + 50) (centerY + halfH + 50) (isRotated node)
    else node.

(** The two branches after the generator has returned. *)
Definition layoutNodes (savedLayout : option SavedLayoutMap.t)
    (generated : Graph) : Graph :=
  match savedLayout with
  | Some sl => forEachNode (applySaved (SavedLayoutMap.nodes sl)) generated
  | None => forEachNode defaultLayout generated
  end.

Definition alignMethodOf (a : Align) : AlignMethod :=
  match a with
  | align_left => sankeyLeft
  | align_right => sankeyRight
  | center => sankeyCenter
  | justify => sankeyJustify
  end.

Definition generatorConfig (settings : VisualizationSettings) : GeneratorConfig :=
  let effectiveHeight := (height - 10) * JS.or_def (flowScale settings) (9#10) in
  let verticalMargin := (height - effectiveHeight) / 2 in
  mkConfig (nodeWidth settings) (nodePadding settings)
           (alignMethodOf (align settings))
           ((1, verticalMargin), (width - 1, height - verticalMargin)).

(** The effect "1. Initial Data Load (D3 Layout)". *)
Definition initialLayout (data : processData.GraphData)
    (settings : VisualizationSettings)
    (savedLayout : option SavedLayoutMap.t) (st : State) : State :=
  match processData.nodes data with
  | [] => st
  | _ =>
      match sankeyGenerator (generatorConfig settings) data with
      | Returns generated =>
          mkState (Some (layoutNodes savedLayout generated)) (console st)
      | Raises e =>
          mkState (graph st) (console st ++ ["Layout Error"; e])
      end
  end.

End Layout.

(** [handleSaveClick]: the layout handed to [onSaveLayout], or [None]
    when the handler returns without saving. *)
Definition saveNode (nodesMap : gmap string SavedNodeLayout.t)
    (n : SankeyNode) : gmap string SavedNodeLayout.t :=
  <[id n := SavedNodeLayout.mk (x0 n) (x1 n) (y0 n) (y1 n)
                               (default false (isRotated n))]> nodesMap.

Definition handleSaveClick (graph : option Graph)
    (linkOffsets : LinkOffsets) : option SavedLayoutMap.t :=
  match graph with
  | None => None
  | Some g =>
      let nodesMap := foldl saveNode ∅ (nodes g) in
      let linksMap := linkOffsets in
      Some (SavedLayoutMap.mk nodesMap linksMap)
  end.

(** The rectangle and rotation flag of a node, the flag read as the
    source reads it ([n.isRotated || false]). *)
Definition rectangle (n : SankeyNode) : Q * Q * Q * Q * bool :=
  (x0 n, x1 n, y0 n, y1 n, default false (isRotated n)).

End Diagram.

(** ** What the routing computes, link end by link end *)

Module Routing.

Import Diagram.

(** A link object without its endpoint attachment records: the part
    of it that the routing reads and never writes. *)
Definition geom (l : SankeyLink) : SankeyLink :=
  mkLink (source l) (target l) (value l) (realValue l) (type l) (width l)
         None None.

Definition widthAt (L : list SankeyLink) (k : nat) : Q :=
  match L !! k with
  | Some l => linkWidth l
  | None => 0
  end.

(** The link [l] attaches to node [i] through bucket [b]. *)
Definition memberLink (linkOffsets : LinkOffsets) (i : nat) (b : BucketName)
    (l : SankeyLink) : bool :=
  match fst b with
  | Outgoing =>
      Nat.eqb (index (source l)) i && side_eqb (sourceSideOf linkOffsets l) (snd b)
  | Incoming =>
      Nat.eqb (index (target l)) i && side_eqb (targetSideOf linkOffsets l) (snd b)
  end.

Definition member (linkOffsets : LinkOffsets) (i : nat) (b : BucketName)
    (L : list SankeyLink) (k : nat) : bool :=
  match L !! k with
  | Some l => memberLink linkOffsets i b l
  | None => false
  end.

(** The bucket [b] of node [i]: the positions of its links, in the
    order of [graph.links]. *)
Definition bucketOf (linkOffsets : LinkOffsets) (L : list SankeyLink)
    (i : nat) (b : BucketName) : list nat :=
  List.filter (member linkOffsets i b L) (seq 0 (length L)).

(** The bucket in its default order. *)
Definition sortedBucket (linkOffsets : LinkOffsets) (L : list SankeyLink)
    (i : nat) (b : BucketName) : list nat :=
  JS.sort (compareRefs L b) (bucketOf linkOffsets L i b).

(** The cursor [currentPos] when the loop over [ks] reaches [k],
    having started from [c]. *)
Fixpoint cursorAt (L : list SankeyLink) (c : Q) (ks : list nat) (k : nat) : Q :=
  match ks with
  | [] => c
  | k' :: ks => if Nat.eqb k' k then c else cursorAt L (c + widthAt L k') ks k
  end.

(** The initial cursor of a bucket. *)
Definition startCursor (L : list SankeyLink) (node : SankeyNode)
    (b : BucketName) (ks : list nat) : Q :=
  Qmax 0 ((edgeLengthOf node b - totalWidth L ks) / 2).

Definition setEnd (b : BucketName) (l : SankeyLink) (c : Coords) : SankeyLink :=
  if startsWith_in b then setTargetCoords l c else setSourceCoords l c.

(** The attachment record written for the link [l] at position [k],
    when the bucket [ks] of [node] is laid out from the cursor [c]. *)
Definition placedCoords (linkOffsets : LinkOffsets) (node : SankeyNode)
    (b : BucketName) (L : list SankeyLink) (c : Q) (ks : list nat)
    (k : nat) (l : SankeyLink) : Coords :=
  let edgeLength := edgeLengthOf node b in
  edgePoint node b
    (posOnEdgeOf linkOffsets b edgeLength (cursorAt L c ks k) l + linkWidth l / 2).

(** The clamped position along the edge ([posOnEdge]) of the end of
    [l] that bucket [b] of node [i] attaches. *)
Definition edgeStart (linkOffsets : LinkOffsets) (L : list SankeyLink)
    (node : SankeyNode) (i : nat) (b : BucketName) (k : nat) (l : SankeyLink) : Q :=
  let ks := sortedBucket linkOffsets L i b in
  posOnEdgeOf linkOffsets b (edgeLengthOf node b)
              (cursorAt L (startCursor L node b ks) ks k) l.

(** The attachment record of that end in the routed graph. *)
Definition endCoords (linkOffsets : LinkOffsets) (L : list SankeyLink)
    (node : SankeyNode) (i : nat) (b : BucketName) (k : nat) (l : SankeyLink) : Coords :=
  edgePoint node b (edgeStart linkOffsets L node i b k l + linkWidth l / 2).

(** The bucket a link leaves its source through, and the one it
    enters its target through. *)
Definition sourceBucket (linkOffsets : LinkOffsets) (l : SankeyLink) : BucketName :=
  (Outgoing, sourceSideOf linkOffsets l).

Definition targetBucket (linkOffsets : LinkOffsets) (l : SankeyLink) : BucketName :=
  (Incoming, targetSideOf linkOffsets l).

(** The link at position [k] once routed, given the nodes its two
    ends attach to. *)
Definition routedLink (linkOffsets : LinkOffsets) (L : list SankeyLink)
    (ns nt : SankeyNode) (k : nat) (l : SankeyLink) : SankeyLink :=
  mkLink (source l) (target l) (value l) (realValue l) (type l) (width l)
    (Some (endCoords linkOffsets L ns (index (source l))
                     (sourceBucket linkOffsets l) k l))
    (Some (endCoords linkOffsets L nt (index (target l))
                     (targetBucket linkOffsets l) k l)).

(** Every link endpoint is a node position of the graph. *)
Definition wellLinked (g : Graph) : Prop :=
  forall k l, links g !! k = Some l ->
    (index (source l) < length (nodes g))%nat /\
    (index (target l) < length (nodes g))%nat.

(** The attachment record of the end of a routed link on the side of
    bucket [b]. *)
Definition coordsOf (b : BucketName) (l : SankeyLink) : option Coords :=
  if startsWith_in b then targetCoords l else sourceCoords l.

(** Read back from an attachment record the start of the interval a
    link of width [lw] occupies along the edge of [node]. *)
Definition occupiedStart (node : SankeyNode) (c : Coords) (lw : Q) : option Q :=
  match side c with
  | Left | Right =>
      match y c with Some v => Some (v - y0 node - lw / 2) | None => None end
  | Top | Bottom =>
      match x c with Some v => Some (v - x0 node - lw / 2) | None => None end
  end.

(** The half-open intervals [[a, a + w)] and [[a', a' + w')] have no
    point in common. *)
Definition disjoint (a w a' w' : Q) : Prop :=
  forall p, ~ ((a <= p /\ p < a + w) /\ (a' <= p /\ p < a' + w')).

(** The start of the interval the end of the routed link [l] on the
    side of bucket [b] occupies along the edge of [node]. *)
Definition routedStart (node : SankeyNode) (b : BucketName)
    (l : SankeyLink) : option Q :=
  match coordsOf b l with
  | Some c => occupiedStart node c (linkWidth l)
  | None => None
  end.

(** The links of one bucket of a routed graph that have no saved
    manual offset for that end occupy pairwise disjoint intervals, for
    the buckets selected by [fits]. *)
Definition noOverlap (linkOffsets : LinkOffsets) (g : Graph)
    (fits : nat -> SankeyNode -> BucketName -> Prop) : Prop :=
  forall i node b k1 k2 l1 l2,
    nodes g !! i = Some node -> fits i node b ->
    k1 <> k2 ->
    k1 ∈ bucketOf linkOffsets (links g) i b ->
    k2 ∈ bucketOf linkOffsets (links g) i b ->
    links g !! k1 = Some l1 -> links g !! k2 = Some l2 ->
    manualPosOf linkOffsets b l1 = None ->
    manualPosOf linkOffsets b l2 = None ->
    exists a1 a2,
      routedStart node b l1 = Some a1 /\ routedStart node b l2 = Some a2 /\
      disjoint a1 (linkWidth l1) a2 (linkWidth l2).

(** The sum of the widths of the links at the positions [ks]. *)
Fixpoint sumWidths (L : list SankeyLink) (ks : list nat) : Q :=
  match ks with
  | [] => 0
  | k :: ks => widthAt L k + sumWidths L ks
  end.

(** A bucket fits its edge: no width is negative and the widths sum
    to no more than the edge length. *)
Definition bucketFits (linkOffsets : LinkOffsets) (g : Graph)
    (i : nat) (node : SankeyNode) (b : BucketName) : Prop :=
  (forall k, k ∈ bucketOf linkOffsets (links g) i b -> 0 <= widthAt (links g) k) /\
  sumWidths (links g) (bucketOf linkOffsets (links g) i b) <= edgeLengthOf node b.

(** The positions of [ks] that come before [k]. *)
Fixpoint prefixBefore (ks : list nat) (k : nat) : list nat :=
  match ks with
  | [] => []
  | k' :: ks => if Nat.eqb k' k then [] else k' :: prefixBefore ks k
  end.

(** The positions of [ks] whose link has no saved manual offset for
    the end bucket [b] attaches. *)
Definition autoOnly (linkOffsets : LinkOffsets) (b : BucketName)
    (L : list SankeyLink) (ks : list nat) : list nat :=
  List.filter (fun k => match L !! k with
                        | Some l => match manualPosOf linkOffsets b l with
                                    | Some _ => false
                                    | None => true
                                    end
                        | None => false
                        end) ks.

(** The clamp of [getCoords]. *)
Definition clamp (pos edgeLength lw : Q) : Q :=
  Qmax 0 (Qmin pos (edgeLength - lw)).

(** Where the end of [l] is laid along its edge when the links at
    [ks], in that order, are the ones counted for the centring and
    for the cursor: a saved offset is the centre of the link; without
    one the link starts where the links of [ks] before it end. *)
Definition laidStart (linkOffsets : LinkOffsets) (L : list SankeyLink)
    (node : SankeyNode) (b : BucketName) (ks : list nat)
    (k : nat) (l : SankeyLink) : Q :=
  let edgeLength := edgeLengthOf node b in
  let lw := linkWidth l in
  match manualPosOf linkOffsets b l with
  | Some manualPos => clamp (manualPos - lw / 2) edgeLength lw
  | None =>
      clamp (Qmax 0 ((edgeLength - sumWidths L ks) / 2)
             + sumWidths L (prefixBefore ks k)) edgeLength lw
  end.

(** Every link end of a routed graph is laid by [laidStart], with
    [counted] choosing, from the sorted bucket, the links counted. *)
Definition placementLaw (linkOffsets : LinkOffsets) (g : Graph)
    (counted : BucketName -> list SankeyLink -> list nat -> list nat) : Prop :=
  forall i node b k l,
    nodes g !! i = Some node ->
    k ∈ bucketOf linkOffsets (links g) i b ->
    links g !! k = Some l ->
    exists a,
      routedStart node b l = Some a /\
      a == laidStart linkOffsets (links g) node b
             (counted b (links g) (sortedBucket linkOffsets (links g) i b)) k l.

(** Example graphs.  Three square or tall nodes, the first with a
    link to each of the other two, both leaving through its right
    edge. *)
Definition plainNode (nid : string) (i : nat) (nx0 nx1 ny0 ny1 : Q) : SankeyNode :=
  mkNode nid nid process i nx0 nx1 ny0 ny1 None.

Definition plainLink (s t : SankeyNode) (w : Q) : SankeyLink :=
  mkLink s t 1 (Some 1) domestic (Some w) None None.

(** Two links of width 8 on an edge of length 10. *)
Definition crowded : Graph :=
  let a := plainNode "a" 0 0 10 0 10 in
  let b := plainNode "b" 1 100 110 0 10 in
  let c := plainNode "c" 2 100 110 20 30 in
  mkGraph [a; b; c] [plainLink a b 8; plainLink a c 8].

(** Two links of width 10 on an edge of length 100, the first with a
    saved source offset of 90. *)
Definition mixed : Graph :=
  let a := plainNode "a" 0 0 10 0 100 in
  let b := plainNode "b" 1 200 210 0 10 in
  let c := plainNode "c" 2 200 210 50 60 in
  mkGraph [a; b; c] [plainLink a b 10; plainLink a c 10].

(** The graph [crowded] whose link objects still hold attachment
    records of an earlier routing on other geometry. *)
Definition crowdedStale : Graph :=
  mkGraph (nodes crowded)
          (map (fun l => setTargetCoords
                           (setSourceCoords l (mkCoords (Some 3) (Some 7) Top))
                           (mkCoords None (Some 1) Bottom))
               (links crowded)).

Definition mixedOffsets : LinkOffsets :=
  {[ "a-b" := mkSavedLink (Some 90) None None None ]}.

End Routing.

(** ** The reference arrangement and the layout scenarios *)

Module Reference.

Import Diagram.

(** The process chain of the reference figure: node id, left edge,
    and vertical offset of the node centre from the canvas centre. *)
Definition processChain : list (string * (Q * Q)) :=
  [ ("ore", (50, 0));
    ("concentrate", (250, 0));
    ("metal", (450, 0));
    ("magnet", (650, -(50)));
    ("other_semi", (650, 80));
    ("wind_turbine", (900, -(50)));
    ("other_final", (900, 50)) ].

(** The node [n'] is the generated node [n] moved to its place in the
    reference figure on a [width] by [height] canvas: the export bar
    along the top, the loss bar along the bottom, end of life to the
    right with its top at mid height, the process chain left to right
    around mid height.  The two bars have a fixed size; the other
    nodes keep the size the generic layout gave them. *)
Definition atReference (width height : Q) (n n' : SankeyNode) : Prop :=
  id n' = id n /\
  (id n = "export" ->
     x0 n' == width / 2 /\ x1 n' == width - 100 /\ y0 n' == 20 /\ y1 n' == 40 /\
     isRotated n' = Some true) /\
  (id n = "loss" ->
     x0 n' == 100 /\ x1 n' == width - 100 /\
     y0 n' == height - 40 /\ y1 n' == height - 20 /\
     isRotated n' = Some true) /\
  (id n = "eol" ->
     x0 n' == 1050 /\ x1 n' - x0 n' == x1 n - x0 n /\
     y0 n' == height / 2 /\ y1 n' - y0 n' == y1 n - y0 n) /\
  (forall left dy, (id n, (left, dy)) ∈ processChain ->
     x0 n' == left /\ x1 n' - x0 n' == x1 n - x0 n /\
     (y0 n' + y1 n') / 2 == height / 2 + dy /\ y1 n' - y0 n' == y1 n - y0 n).

(** The node ids of the fixed vocabulary. *)
Definition vocabulary : list string :=
  [ "ore"; "concentrate"; "metal"; "magnet"; "other_semi"; "wind_turbine";
    "other_final"; "loss"; "export"; "eol" ].

(** C3 as stated: after the layout, every generated node without a
    saved entry is at its reference place. *)
Definition defaultsPerNode (width height : Q)
    (savedLayout : option SavedLayoutMap.t) (generated : Graph) : Prop :=
  forall j n, nodes generated !! j = Some n ->
    match savedLayout with
    | Some sl => SavedLayoutMap.nodes sl !! id n = None
    | None => True
    end ->
    exists n', nodes (layoutNodes width height savedLayout generated) !! j = Some n' /\
               atReference width height n n'.

(** A generated graph: the ore node where a generic layout may put
    it, in the first column. *)
Definition oreOnly : Graph :=
  mkGraph [mkNode "ore" "Ore" process 0 1 26 40 660 None] [].

(** A saved layout with no node entry. *)
Definition emptySaved : SavedLayoutMap.t := SavedLayoutMap.mk ∅ ∅.

(** A generator that always fails, and one that always returns the
    same graph. *)
Definition failingGenerator (_ : GeneratorConfig)
    (_ : processData.GraphData) : Generated := Raises "circular link".

Definition constantGenerator (g : Graph) (_ : GeneratorConfig)
    (_ : processData.GraphData) : Generated := Returns g.

Definition defaultSettings : VisualizationSettings :=
  mkSettings 25 30 (9#10) justify.

(** A graph with two nodes, one of them rotated. *)
Definition twoNodes : Graph :=
  mkGraph [ mkNode "ore" "Ore" process 0 50 75 100 300 None;
            mkNode "export" "Export" trade_node 1 550 1000 20 40 (Some true) ] [].

End Reference.

(** ** SankeyDiagram.tsx: live update, interactions, path geometry *)

Module Interaction.

Import Diagram.

(** The effect "2. Live Update Layout (Settings Change)": every node is
    replaced by a copy with a new right edge.  The link objects are
    kept, and with them the node objects they refer to. *)
Definition liveUpdateNode (nodeWidth : Q) (n : SankeyNode) : SankeyNode :=
  let currentW := x1 n - x0 n in
  let diff := nodeWidth - currentW in
  mkNode (id n) (name n) (category n) (index n)
         (x0 n) (x1 n + diff) (y0 n) (y1 n) (isRotated n).

Definition liveUpdate (settings : VisualizationSettings)
    (graph : option Graph) : option Graph :=
  match graph with
  | None => None
  | Some prev =>
      Some (mkGraph (map (liveUpdateNode (nodeWidth settings)) (nodes prev))
                    (links prev))
  end.

(** The effect "Initialize Link Offsets from Saved Layout". *)
Definition initLinkOffsets (savedLayout : option SavedLayoutMap.t)
    (linkOffsets : LinkOffsets) : LinkOffsets :=
  match savedLayout with
  | Some sl => SavedLayoutMap.links sl
  | None => linkOffsets
  end.



(** The [drag] handler of the resize handle, for the pointer at
    [(pointerX, pointerY)]. *)
Definition dragResize (width height pointerX pointerY : Q)
    (d : SankeyNode) : SankeyNode :=
  let mouseX := Qmax 0 (Qmin width pointerX) in
  let mouseY := Qmax 0 (Qmin height pointerY) in
  let newW := Qmax 10 (mouseX - x0 d) in
  let newH := Qmax 10 (mouseY - y0 d) in
  mkNode (id d) (name d) (category d) (index d)
         (x0 d) (x0 d + newW) (y0 d) (y0 d + newH) (isRotated d).

Inductive HandleType := SourceHandle | TargetHandle.

Definition handleNode (link : SankeyLink) (type : HandleType) : SankeyNode :=
  match type with
  | SourceHandle => source link
  | TargetHandle => target link
  end.

(** [newSide] and [newOffset] of the [drag] handler of a link handle. *)
Definition newSideOf (mouseX mouseY : Q) (node : SankeyNode) : Side :=
  let nodeW := x1 node - x0 node in
  let nodeH := y1 node - y0 node in
  let isVertical := JS.gt nodeH nodeW in
  let centerX := x0 node + nodeW / 2 in
  let centerY := y0 node + nodeH / 2 in
  if isVertical
  then (if JS.lt mouseX centerX then Left else Right)
  else (if JS.lt mouseY centerY then Top else Bottom).

Definition newOffsetOf (mouseX mouseY : Q) (node : SankeyNode) : Q :=
  let nodeW := x1 node - x0 node in
  let nodeH := y1 node - y0 node in
  match newSideOf mouseX mouseY node with
  | Top | Bottom =>
      let relX := mouseX - x0 node in
      Qmax 0 (Qmin relX nodeW)
  | Left | Right =>
      let relY := mouseY - y0 node in
      Qmax 0 (Qmin relY nodeH)
  end.

(** The [drag] handler of a link handle: the update it passes to
    [setLinkOffsets], applied to the table [prev]. *)
Definition dragLinkHandle (mouseX mouseY : Q) (link : SankeyLink)
    (type : HandleType) (prev : LinkOffsets) : LinkOffsets :=
  let node := handleNode link type in
  let newSide := newSideOf mouseX mouseY node in
  let newOffset := newOffsetOf mouseX mouseY node in
  let linkKey := getLinkKey link in
  let old := prev !! linkKey in
  let entry :=
    match type with
    | SourceHandle =>
        mkSavedLink (Some newOffset) (savedOffsetOf old targetOffset)
                    (Some newSide) (savedSide old targetSide)
    | TargetHandle =>
        mkSavedLink (savedOffsetOf old sourceOffset) (Some newOffset)
                    (savedSide old sourceSide) (Some newSide)
    end in
  <[linkKey := entry]> prev.

(** A resolved attachment, as the renderer reads it off a routed link. *)
Record Attachment := mkAttachment {
  ax : Q;
  ay : Q;
  aside : Side
}.

(** [getControlPoints], for the value [dist] of
    [Math.sqrt((t.x - s.x)^2 + (t.y - s.y)^2) * 0.5]. *)
Definition getControlPoints (dist : Q) (s t : Attachment) : Q * Q * Q * Q :=
  let '(cp1x, cp1y) :=
    match aside s with
    | Right => (ax s + dist, ay s)
    | Left => (ax s - dist, ay s)
    | Bottom => (ax s, ay s + dist)
    | Top => (ax s, ay s - dist)
    end in
  let '(cp2x, cp2y) :=
    match aside t with
    | Right => (ax t + dist, ay t)
    | Left => (ax t - dist, ay t)
    | Bottom => (ax t, ay t + dist)
    | Top => (ax t, ay t - dist)
    end in
  (cp1x, cp1y, cp2x, cp2y).

(** [getMidPoint]: the point of the cubic curve at parameter 0.5. *)
Definition getMidPoint (dist : Q) (s t : Attachment) : Q * Q :=
  let '(cp1x, cp1y, cp2x, cp2y) := getControlPoints dist s t in
  ((1#8) * ax s + (3#8) * cp1x + (3#8) * cp2x + (1#8) * ax t,
   (1#8) * ay s + (3#8) * cp1y + (3#8) * cp2y + (1#8) * ay t).

Definition opposite (a b : Side) : bool :=
  match a, b with
  | Left, Right | Right, Left | Top, Bottom | Bottom, Top => true
  | _, _ => false
  end.

(** Custom labels: the three list updates handed to [onUpdateLabels]. *)
Record CustomLabel := mkLabel {
  label_id : string;
  text : string;
  label_x : Q;
  label_y : Q
}.

Definition editLabel (d_id newText : string)
    (customLabels : list CustomLabel) : list CustomLabel :=
  map (fun l => if String.eqb (label_id l) d_id
                then mkLabel (label_id l) newText (label_x l) (label_y l)
                else l) customLabels.

Definition deleteLabel (d_id : string)
    (customLabels : list CustomLabel) : list CustomLabel :=
  List.filter (fun l => negb (String.eqb (label_id l) d_id)) customLabels.

(** The label drag: the position while dragging, clamped to the canvas,
    and the list update on release. *)
Definition labelDragTo (width height eventX eventY : Q) : Q * Q :=
  (Qmax 0 (Qmin width eventX), Qmax 0 (Qmin height eventY)).

Definition moveLabel (d_id : string) (pos : Q * Q)
    (customLabels : list CustomLabel) : list CustomLabel :=
  map (fun l => if String.eqb (label_id l) d_id
                then mkLabel (label_id l) (text l) (fst pos) (snd pos)
                else l) customLabels.









End Interaction.

(** ** What the builder reads of a row *)

Module Columns.

Import processData.

(** The column names [processYearData] reads. *)
Definition columns : list string :=
  [ "domestic-ore"; "trade-concentrate"; "export-concentrate";
    "loss-concentrate"; "domestic-concentrate"; "trade-metal"; "export-metal";
    "loss-metal"; "domestic-metal"; "domestic-other semi-products";
    "permanent magnets-ex(kt)"; "trade-permenent magnets";
    "export-permenent magnets"; "loss-permenent magnets";
    "export-other semi-products"; "domestic-permenent magnets";
    "domestic-other finalproducts"; "trade-wind turbine"; "export-wind turbine";
    "export-other finalproducts"; "Wind Turbine outflow"; "Others outflow";
    "end of life"; "end of life to loss" ].

(** A cell as the builder reads it: a zero is as good as no cell. *)
Definition reading (v : option Q) : option Q := JS.or v None.

(** Two rows that read alike on every column the builder looks at. *)
Definition sameReading (row1 row2 : NdDataRow) : Prop :=
  forall k, k ∈ columns -> reading (row1 !! k) = reading (row2 !! k).

(** The ordered pair of node indices a link joins. *)
Definition endpoints (l : SankeyLink) : nat * nat := (source l, target l).

(** The three links every graph has. *)
Definition floorLinks : list SankeyLink :=
  [ mkLink 5 9 (1#4) 0 domestic;
    mkLink 6 9 (1#4) 0 domestic;
    mkLink 9 7 (1#4) 0 loss ].

(** Example rows: the scenario row with an unread column and a zero
    cell added, a row of zeros, and a row whose two concentrate export
    columns cancel. *)
Definition row_2020_padded : NdDataRow :=
  <["comment" := 7]> (<["loss-metal" := 0]> row_2020).

Definition row_zeros : NdDataRow :=
  <["year" := 2021]> (<["domestic-ore" := 0]> (<["end of life" := 0]> ∅)).

Definition row_cancel : NdDataRow :=
  <["trade-concentrate" := 3]> (<["export-concentrate" := -(3)]> ∅).

End Columns.

(** ** The default order of a bucket *)

Module BucketOrder.

Import Diagram Routing.

(** The coordinate a link is sorted by in bucket [b]: the centre of its
    other endpoint, along the direction of the edge. *)
Definition otherCentre (b : BucketName) (l : SankeyLink) : Q :=
  let other := if startsWith_in b then source l else target l in
  let c := getCenter other in
  if isHorizontalEdge b then px c else py c.

Definition centreAt (L : list SankeyLink) (b : BucketName) (k : nat) : Q :=
  match L !! k with
  | Some l => otherCentre b l
  | None => 0
  end.

(** Three links leaving the right edge of one node, listed against the
    order of their targets. *)
Definition fan : Graph :=
  let a := plainNode "a" 0 0 10 0 100 in
  let b := plainNode "b" 1 200 210 0 10 in
  let c := plainNode "c" 2 200 210 40 50 in
  let d := plainNode "d" 3 200 210 80 90 in
  mkGraph [a; b; c; d] [plainLink a d 10; plainLink a b 20; plainLink a c 30].

Definition fanRouted : Graph := default fan (route ∅ fan).

Definition fanLink (k : nat) : SankeyLink :=
  default (plainLink (plainNode "a" 0 0 10 0 100) (plainNode "a" 0 0 10 0 100) 0)
          (links fanRouted !! k).

End BucketOrder.

(** * Facts about the JavaScript operators *)

Section JSFacts.

Lemma lt_spec a b : JS.lt a b = true <-> a < b.
Proof.
  unfold JS.lt. rewrite negb_true_iff. split.
  - intros H. apply Qnot_le_lt. intros Hle.
    apply Qle_bool_iff in Hle. congruence.
  - intros H. destruct (Qle_bool b a) eqn:E; [|reflexivity].
    apply Qle_bool_iff in E. exfalso. exact (Qlt_not_le _ _ H E).
Qed.

Lemma lt_false a b : JS.lt a b = false <-> b <= a.
Proof. unfold JS.lt. rewrite negb_false_iff. apply Qle_bool_iff. Qed.

Lemma gt_spec a b : JS.gt a b = true <-> b < a.
Proof. apply lt_spec. Qed.

Lemma or_num_absent d : JS.or_num None d = d.
Proof. reflexivity. Qed.

Lemma or_num_zero v d : v == 0 -> JS.or_num (Some v) d = d.
Proof.
  intros H. unfold JS.or_num.
  apply Qeq_bool_iff in H. now rewrite H.
Qed.

Lemma or_num_nonzero v d : ~ v == 0 -> JS.or_num (Some v) d = v.
Proof.
  intros H. unfold JS.or_num.
  destruct (Qeq_bool v 0) eqn:E; [|reflexivity].
  apply Qeq_bool_iff in E. contradiction.
Qed.

End JSFacts.

(** * The graph builder *)

Section Builder.

Import processData.

(** The [value] a call of [addLink] stores: the magnitude, raised to
    the display floor for a force-visible link. *)
Definition shownValue (forceVisible : bool) (v : Q) : Q :=
  if forceVisible && JS.lt (Qabs v) (1#4) then 1#4 else Qabs v.

Lemma elem_of_addLink l s t v ty f ls :
  l ∈ addLink s t v ty f ls <->
  l ∈ ls \/ (1#1000 < shownValue f v /\ l = mkLink s t (shownValue f v) (Qabs v) ty).
Proof.
  unfold addLink. fold (shownValue f v).
  destruct (JS.gt (shownValue f v) (1#1000)) eqn:E.
  - apply gt_spec in E. rewrite elem_of_app, list_elem_of_singleton. tauto.
  - split; [tauto|]. intros [H|[H _]]; [exact H|].
    apply gt_spec in H. congruence.
Qed.

Lemma shownValue_forced v : 1#4 <= shownValue true v.
Proof.
  unfold shownValue. simpl.
  destruct (JS.lt (Qabs v) (1#4)) eqn:E.
  - apply Qle_refl.
  - now apply lt_false in E.
Qed.

Lemma shownValue_plain v : shownValue false v = Qabs v.
Proof. reflexivity. Qed.

Definition mkCall (s t : nat) (v : Q) (ty : LinkType) (f : bool) :
    nat * nat * Q * LinkType * bool := (s, t, v, ty, f).

(** The calls of [addLink] that [processYearData] makes, in order. *)
Definition calls (row : NdDataRow) : list (nat * nat * Q * LinkType * bool) :=
  let num k := JS.or_num (row !! k) 0 in
  [ mkCall 0 1 (num "domestic-ore") domestic false;
    mkCall 1 8 (num "trade-concentrate" + num "export-concentrate") trade false;
    mkCall 1 7 (num "loss-concentrate") loss false;
    mkCall 1 2 (num "domestic-concentrate") domestic false;
    mkCall 2 8 (num "trade-metal" + num "export-metal") trade false;
    mkCall 2 7 (num "loss-metal") loss false;
    mkCall 2 3 (num "domestic-metal") domestic false;
    mkCall 2 4 (otherSemiFlow row) domestic false;
    mkCall 3 8 (num "permanent magnets-ex(kt)" + num "trade-permenent magnets"
           + num "export-permenent magnets") trade false;
    mkCall 3 7 (num "loss-permenent magnets") loss false;
    mkCall 4 8 (num "export-other semi-products") trade false;
    mkCall 3 5 (num "domestic-permenent magnets") domestic false;
    mkCall 3 6 (num "domestic-other finalproducts") domestic false;
    mkCall 4 6 (otherSemiFlow row) domestic false;
    mkCall 5 8 (num "trade-wind turbine" + num "export-wind turbine") trade false;
    mkCall 6 8 (num "export-other finalproducts") trade false;
    mkCall 5 9 (num "Wind Turbine outflow") domestic true;
    mkCall 6 9 (num "Others outflow") domestic true;
    mkCall 9 7 (eolToLoss row) loss true ].

Definition call (ls : list SankeyLink)
    (c : nat * nat * Q * LinkType * bool) : list SankeyLink :=
  let '(s, t, v, ty, f) := c in addLink s t v ty f ls.

Definition emitted (c : nat * nat * Q * LinkType * bool) (l : SankeyLink) : Prop :=
  let '(s, t, v, ty, f) := c in
  1#1000 < shownValue f v /\ l = mkLink s t (shownValue f v) (Qabs v) ty.

Lemma processYearData_calls row :
  links (processYearData row) = foldl call [] (calls row).
Proof.
  unfold processYearData, calls, mkCall. cbv zeta.
  cbn [foldl call links]. reflexivity.
Qed.

Lemma elem_of_foldl_call l cs : forall ls,
  l ∈ foldl call ls cs <-> l ∈ ls \/ exists c, c ∈ cs /\ emitted c l.
Proof.
  induction cs as [|c cs IH]; intros ls; simpl.
  - split; [tauto|]. intros [H|[c [H _]]]; [exact H|]. now apply elem_of_nil in H.
  - rewrite IH. destruct c as [[[[s t] v] ty] f]. simpl.
    rewrite elem_of_addLink. split.
    + intros [[H|H]|[c [Hc H]]].
      * now left.
      * right. exists (s, t, v, ty, f). split; [apply list_elem_of_here|exact H].
      * right. exists c. split; [now apply list_elem_of_further|exact H].
    + intros [H|[c [Hc H]]]; [tauto|].
      apply elem_of_cons in Hc. destruct Hc as [->|Hc].
      * left. right. exact H.
      * right. exists c. tauto.
Qed.

Lemma elem_of_links row l :
  l ∈ links (processYearData row) <-> exists c, c ∈ calls row /\ emitted c l.
Proof.
  rewrite processYearData_calls, elem_of_foldl_call.
  split; [|tauto]. intros [H|H]; [|exact H]. now apply elem_of_nil in H.
Qed.

(** Case analysis on the call that emitted a link. *)
Ltac by_call H :=
  apply elem_of_links in H; destruct H as [c [Hc Hem]];
  unfold calls, mkCall in Hc;
  repeat (apply elem_of_cons in Hc; destruct Hc as [->|Hc]);
  [..|now apply elem_of_nil in Hc];
  destruct Hem as [Hvis ->]; simpl in *; try discriminate; try lia.

Lemma link_5_9 row l :
  l ∈ links (processYearData row) -> source l = 5%nat -> target l = 9%nat ->
  l = mkLink 5 9 (shownValue true (JS.or_num (row !! "Wind Turbine outflow") 0))
             (Qabs (JS.or_num (row !! "Wind Turbine outflow") 0)) domestic.
Proof. intros H Hs Ht. by_call H. reflexivity. Qed.

Lemma link_6_9 row l :
  l ∈ links (processYearData row) -> source l = 6%nat -> target l = 9%nat ->
  l = mkLink 6 9 (shownValue true (JS.or_num (row !! "Others outflow") 0))
             (Qabs (JS.or_num (row !! "Others outflow") 0)) domestic.
Proof. intros H Hs Ht. by_call H. reflexivity. Qed.

Lemma link_9_7 row l :
  l ∈ links (processYearData row) -> source l = 9%nat -> target l = 7%nat ->
  l = mkLink 9 7 (shownValue true (eolToLoss row)) (Qabs (eolToLoss row)) loss.
Proof. intros H Hs Ht. by_call H. reflexivity. Qed.

Lemma link_2_4 row l :
  l ∈ links (processYearData row) -> source l = 2%nat -> target l = 4%nat ->
  1#1000 < Qabs (otherSemiFlow row) /\
  l = mkLink 2 4 (Qabs (otherSemiFlow row)) (Qabs (otherSemiFlow row)) domestic.
Proof. intros H Hs Ht. by_call H. split; [exact Hvis|reflexivity]. Qed.

Lemma link_4_6 row l :
  l ∈ links (processYearData row) -> source l = 4%nat -> target l = 6%nat ->
  1#1000 < Qabs (otherSemiFlow row) /\
  l = mkLink 4 6 (Qabs (otherSemiFlow row)) (Qabs (otherSemiFlow row)) domestic.
Proof. intros H Hs Ht. by_call H. split; [exact Hvis|reflexivity]. Qed.

Ltac in_calls :=
  unfold calls, mkCall;
  repeat (first [apply list_elem_of_here|apply list_elem_of_further]).

(** A call whose stored value exceeds the threshold leaves its link in
    the output. *)
Lemma call_emits row s t v ty f :
  (s, t, v, ty, f) ∈ calls row -> 1#1000 < shownValue f v ->
  mkLink s t (shownValue f v) (Qabs v) ty ∈ links (processYearData row).
Proof.
  intros Hc Hv. apply elem_of_links. exists (s, t, v, ty, f).
  split; [exact Hc|]. simpl. split; [exact Hv|reflexivity].
Qed.

Lemma forced_visible v : 1#1000 < shownValue true v.
Proof.
  apply Qlt_le_trans with (1#4); [reflexivity|apply shownValue_forced].
Qed.

(** The true magnitude of the three force-visible transitions. *)
Definition forceVisibleMagnitude (row : NdDataRow) (s t : nat) : option Q :=
  match s, t with
  | 5, 9 => Some (Qabs (JS.or_num (row !! "Wind Turbine outflow") 0))
  | 6, 9 => Some (Qabs (JS.or_num (row !! "Others outflow") 0))
  | 9, 7 => Some (Qabs (eolToLoss row))
  | _, _ => None
  end%nat.

Lemma forceVisibleMagnitude_cases row s t m :
  forceVisibleMagnitude row s t = Some m ->
  (s = 5%nat /\ t = 9%nat /\ m = Qabs (JS.or_num (row !! "Wind Turbine outflow") 0)) \/
  (s = 6%nat /\ t = 9%nat /\ m = Qabs (JS.or_num (row !! "Others outflow") 0)) \/
  (s = 9%nat /\ t = 7%nat /\ m = Qabs (eolToLoss row)).
Proof.
  unfold forceVisibleMagnitude. intros H.
  repeat match type of H with
         | context [match ?n with O => _ | S _ => _ end] =>
             is_var n; destruct n; simpl in H; try discriminate H
         end.
  all: injection H as <-; auto.
Qed.

(** C1, as stated, fails: the scenario row yields more than one link. *)
Lemma C1_single_link_refuted :
  ~ exists l, links (processYearData row_2020) = [l].
Proof. intros [l H]. vm_compute in H. discriminate H. Qed.

(** C1 (amended).  For the row [{year: 2020, 'domestic-ore': 100}] the
    builder returns exactly four links: the domestic link from ore to
    concentrate with value and realValue 100, and the three
    force-visible links (wind turbine to end of life, other final
    products to end of life, end of life to loss), each with value 0.25
    and realValue 0.  The ore to concentrate link is the only one whose
    real magnitude is not zero. *)
Theorem C1_scenario_links :
  links (processYearData row_2020) =
    [ mkLink 0 1 100 100 domestic;
      mkLink 5 9 (1#4) 0 domestic;
      mkLink 6 9 (1#4) 0 domestic;
      mkLink 9 7 (1#4) 0 loss ]
  /\ List.filter (fun l => negb (Qeq_bool (realValue l) 0)) (links (processYearData row_2020)) =
     [ mkLink 0 1 100 100 domestic ].
Proof. split; vm_compute; reflexivity. Qed.

(** C5.  Every link of a force-visible transition that the builder
    emits has value at least 0.25 and a realValue equal to the true
    magnitude of its column; such a link is emitted for each of the
    three transitions whatever the row; and a row whose
    'Wind Turbine outflow' is 0 yields the wind turbine to end of life
    link with value 0.25 and realValue 0. *)
Theorem C5_force_visible_floor (row : NdDataRow) :
  (forall l m, l ∈ links (processYearData row) ->
     forceVisibleMagnitude row (source l) (target l) = Some m ->
     1#4 <= value l /\ realValue l = m) /\
  (forall s t m, forceVisibleMagnitude row s t = Some m ->
     exists l, l ∈ links (processYearData row) /\ source l = s /\ target l = t) /\
  (forall v, row !! "Wind Turbine outflow" = Some v -> v == 0 ->
     mkLink 5 9 (1#4) 0 domestic ∈ links (processYearData row)).
Proof.
  split; [|split].
  - intros l m Hl Hm.
    destruct (forceVisibleMagnitude_cases _ _ _ _ Hm)
      as [(Hs & Ht & ->)|[(Hs & Ht & ->)|(Hs & Ht & ->)]].
    + rewrite (link_5_9 row l Hl Hs Ht). simpl. split; [apply shownValue_forced|reflexivity].
    + rewrite (link_6_9 row l Hl Hs Ht). simpl. split; [apply shownValue_forced|reflexivity].
    + rewrite (link_9_7 row l Hl Hs Ht). simpl. split; [apply shownValue_forced|reflexivity].
  - intros s t m Hm.
    destruct (forceVisibleMagnitude_cases _ _ _ _ Hm)
      as [(-> & -> & _)|[(-> & -> & _)|(-> & -> & _)]].
    + eexists. split; [eapply (call_emits row 5 9 _ domestic true); [in_calls|apply forced_visible]|split; reflexivity].
    + eexists. split; [eapply (call_emits row 6 9 _ domestic true); [in_calls|apply forced_visible]|split; reflexivity].
    + eexists. split; [eapply (call_emits row 9 7 _ loss true); [in_calls|apply forced_visible]|split; reflexivity].
  - intros v Hv Hz.
    pose proof (call_emits row 5 9 (JS.or_num (row !! "Wind Turbine outflow") 0)
                  domestic true) as H.
    rewrite Hv, (or_num_zero v 0 Hz) in H. apply H; [|reflexivity].
    unfold calls, mkCall. rewrite Hv, (or_num_zero v 0 Hz).
    repeat (first [apply list_elem_of_here|apply list_elem_of_further]).
Qed.

(** C9.  The end of life to loss link is always emitted and is unique.
    Its magnitude is the 'end of life' column when that column is
    present and not zero; when the column is absent or zero it is the
    'end of life to loss' column (0 when that one is absent or zero as
    well). *)
Theorem C9_eol_falls_back_to_alias (row : NdDataRow) :
  (forall v, row !! "end of life" = Some v -> ~ v == 0 ->
     mkLink 9 7 (shownValue true v) (Qabs v) loss ∈ links (processYearData row)) /\
  (row !! "end of life" = None \/
   (exists v, row !! "end of life" = Some v /\ v == 0) ->
     let alias := JS.or_num (row !! "end of life to loss") 0 in
     mkLink 9 7 (shownValue true alias) (Qabs alias) loss
       ∈ links (processYearData row)) /\
  (forall l l', l ∈ links (processYearData row) -> l' ∈ links (processYearData row) ->
     source l = 9%nat -> target l = 7%nat ->
     source l' = 9%nat -> target l' = 7%nat -> l = l').
Proof.
  assert (Hin : mkLink 9 7 (shownValue true (eolToLoss row)) (Qabs (eolToLoss row)) loss
                ∈ links (processYearData row)).
  { eapply (call_emits row 9 7 _ loss true); [|apply forced_visible].
    unfold calls, mkCall. repeat (first [apply list_elem_of_here|apply list_elem_of_further]). }
  split; [|split].
  - intros v Hv Hnz.
    assert (E : eolToLoss row = v).
    { unfold eolToLoss, JS.or, JS.truthy. rewrite Hv.
      destruct (Qeq_bool v 0) eqn:Ez.
      - apply Qeq_bool_iff in Ez. contradiction.
      - simpl. now rewrite Ez. }
    now rewrite E in Hin.
  - intros H alias.
    assert (E : eolToLoss row = alias).
    { unfold eolToLoss, JS.or, JS.truthy.
      destruct H as [->|[v [-> Hz]]]; [reflexivity|].
      apply Qeq_bool_iff in Hz. now rewrite Hz. }
    now rewrite E in Hin.
  - intros l l' Hl Hl' Hs Ht Hs' Ht'.
    rewrite (link_9_7 row l Hl Hs Ht), (link_9_7 row l' Hl' Hs' Ht'). reflexivity.
Qed.

(** C10.  The metal to other semi-products link and the other
    semi-products to other final products link are each emitted exactly
    when the magnitude of 'domestic-other semi-products' exceeds 0.001,
    and when both are present they carry the same value and the same
    realValue. *)
Theorem C10_other_semi_links_agree (row : NdDataRow) :
  let m := Qabs (JS.or_num (row !! "domestic-other semi-products") 0) in
  ((exists l, l ∈ links (processYearData row) /\ source l = 2%nat /\ target l = 4%nat)
     <-> 1#1000 < m) /\
  ((exists l, l ∈ links (processYearData row) /\ source l = 4%nat /\ target l = 6%nat)
     <-> 1#1000 < m) /\
  (forall l l', l ∈ links (processYearData row) -> l' ∈ links (processYearData row) ->
     source l = 2%nat -> target l = 4%nat ->
     source l' = 4%nat -> target l' = 6%nat ->
     value l = m /\ value l' = m /\ realValue l = m /\ realValue l' = m).
Proof.
  intros m. fold (otherSemiFlow row) in m. subst m.
  split; [|split].
  - split.
    + intros (l & Hl & Hs & Ht). exact (proj1 (link_2_4 row l Hl Hs Ht)).
    + intros Hm. eexists. split; [eapply (call_emits row 2 4 _ domestic false); [in_calls|exact Hm]|split; reflexivity].
  - split.
    + intros (l & Hl & Hs & Ht). exact (proj1 (link_4_6 row l Hl Hs Ht)).
    + intros Hm. eexists. split; [eapply (call_emits row 4 6 _ domestic false); [in_calls|exact Hm]|split; reflexivity].
  - intros l l' Hl Hl' Hs Ht Hs' Ht'.
    rewrite (proj2 (link_2_4 row l Hl Hs Ht)), (proj2 (link_4_6 row l' Hl' Hs' Ht')).
    simpl. auto.
Qed.

End Builder.

(** * The routing, bucket by bucket *)

Section SortFacts.

Context {A : Type} (cmp : A -> A -> Q).

Lemma sort_insert_perm a l : JS.sort_insert cmp a l ≡ₚ a :: l.
Proof.
  induction l as [|b r IH]; simpl; [reflexivity|].
  destruct (Qle_bool (cmp a b) 0); [reflexivity|].
  rewrite IH. apply Permutation_swap.
Qed.

Lemma sort_perm l : JS.sort cmp l ≡ₚ l.
Proof.
  induction l as [|a r IH]; simpl; [reflexivity|].
  rewrite sort_insert_perm. now rewrite IH.
Qed.

Lemma sort_insert_ext (cmp' : A -> A -> Q) a l :
  (forall u v, cmp u v = cmp' u v) ->
  JS.sort_insert cmp a l = JS.sort_insert cmp' a l.
Proof.
  intros H. induction l as [|b r IH]; simpl; [reflexivity|].
  now rewrite H, IH.
Qed.

Lemma sort_ext (cmp' : A -> A -> Q) l :
  (forall u v, cmp u v = cmp' u v) -> JS.sort cmp l = JS.sort cmp' l.
Proof.
  intros H. induction l as [|a r IH]; simpl; [reflexivity|].
  rewrite IH. now apply sort_insert_ext.
Qed.

Lemma elem_of_sort k l : k ∈ JS.sort cmp l <-> k ∈ l.
Proof. now rewrite sort_perm. Qed.

Lemma NoDup_sort l : NoDup l -> NoDup (JS.sort cmp l).
Proof. now rewrite sort_perm. Qed.

End SortFacts.

Section GeomFacts.

Import Diagram Routing.

Lemma geom_setSourceCoords l c : geom (setSourceCoords l c) = geom l.
Proof. reflexivity. Qed.

Lemma geom_setTargetCoords l c : geom (setTargetCoords l c) = geom l.
Proof. reflexivity. Qed.

Lemma geom_setEnd b l c : geom (setEnd b l c) = geom l.
Proof. unfold setEnd. now destruct (startsWith_in b). Qed.

(** What the routing reads of a link is a function of its geometry. *)
Lemma geom_fields l l' :
  geom l = geom l' ->
  source l = source l' /\ target l = target l' /\ value l = value l' /\
  realValue l = realValue l' /\ type l = type l' /\ width l = width l'.
Proof.
  destruct l, l'. unfold geom. simpl. intros H. injection H. intros. subst. auto 10.
Qed.

Lemma linkWidth_geom l l' : geom l = geom l' -> linkWidth l = linkWidth l'.
Proof.
  intros H. apply geom_fields in H as (_ & _ & _ & _ & _ & Hw).
  unfold linkWidth. now rewrite Hw.
Qed.

Lemma getLinkKey_geom l l' : geom l = geom l' -> getLinkKey l = getLinkKey l'.
Proof.
  intros H. apply geom_fields in H as (Hs & Ht & _).
  unfold getLinkKey. now rewrite Hs, Ht.
Qed.

Lemma sourceSideOf_geom offs l l' :
  geom l = geom l' -> sourceSideOf offs l = sourceSideOf offs l'.
Proof.
  intros H. unfold sourceSideOf. rewrite (getLinkKey_geom _ _ H).
  apply geom_fields in H as (Hs & Ht & _). now rewrite Hs, Ht.
Qed.

Lemma targetSideOf_geom offs l l' :
  geom l = geom l' -> targetSideOf offs l = targetSideOf offs l'.
Proof.
  intros H. unfold targetSideOf. rewrite (getLinkKey_geom _ _ H).
  apply geom_fields in H as (Hs & Ht & _). now rewrite Hs, Ht.
Qed.

Lemma memberLink_geom offs i b l l' :
  geom l = geom l' -> memberLink offs i b l = memberLink offs i b l'.
Proof.
  intros H. unfold memberLink.
  rewrite (sourceSideOf_geom _ _ _ H), (targetSideOf_geom _ _ _ H).
  apply geom_fields in H as (Hs & Ht & _). now rewrite Hs, Ht.
Qed.

Lemma manualPosOf_geom offs b l l' :
  geom l = geom l' -> manualPosOf offs b l = manualPosOf offs b l'.
Proof.
  intros H. unfold manualPosOf. now rewrite (getLinkKey_geom _ _ H).
Qed.

Lemma posOnEdgeOf_geom offs b E c l l' :
  geom l = geom l' -> posOnEdgeOf offs b E c l = posOnEdgeOf offs b E c l'.
Proof.
  intros H. unfold posOnEdgeOf.
  now rewrite (manualPosOf_geom _ _ _ _ H), (linkWidth_geom _ _ H).
Qed.

Lemma compareLinks_geom b u u' v v' :
  geom u = geom u' -> geom v = geom v' ->
  compareLinks b u v = compareLinks b u' v'.
Proof.
  intros Hu Hv. unfold compareLinks.
  apply geom_fields in Hu as (Hs & Ht & _).
  apply geom_fields in Hv as (Hs' & Ht' & _).
  now rewrite Hs, Ht, Hs', Ht'.
Qed.

(** Two stores of link objects with the same geometry. *)
Definition geomEq (L L' : list SankeyLink) : Prop :=
  geom <$> L = geom <$> L'.

Lemma geomEq_refl L : geomEq L L.
Proof. reflexivity. Qed.

Lemma geomEq_trans L1 L2 L3 : geomEq L1 L2 -> geomEq L2 L3 -> geomEq L1 L3.
Proof. unfold geomEq. congruence. Qed.

Lemma geomEq_sym L1 L2 : geomEq L1 L2 -> geomEq L2 L1.
Proof. unfold geomEq. congruence. Qed.

Lemma geomEq_length L L' : geomEq L L' -> length L = length L'.
Proof.
  intros H. apply (f_equal length) in H. now rewrite !length_fmap in H.
Qed.

Lemma geomEq_lookup L L' k :
  geomEq L L' -> geom <$> L !! k = geom <$> L' !! k.
Proof. intros H. rewrite <- !list_lookup_fmap. now rewrite H. Qed.

Lemma geomEq_lookup_Some L L' k l :
  geomEq L L' -> L !! k = Some l ->
  exists l', L' !! k = Some l' /\ geom l = geom l'.
Proof.
  intros H Hl. pose proof (geomEq_lookup L L' k H) as E. rewrite Hl in E.
  destruct (L' !! k) as [l'|]; [|discriminate].
  exists l'. split; [reflexivity|]. simpl in E. congruence.
Qed.

Lemma geomEq_intro L L' :
  (forall k, geom <$> L !! k = geom <$> L' !! k) -> geomEq L L'.
Proof.
  intros H. apply list_eq. intros k. now rewrite !list_lookup_fmap.
Qed.

Lemma widthAt_geomEq L L' k : geomEq L L' -> widthAt L k = widthAt L' k.
Proof.
  intros H. unfold widthAt. pose proof (geomEq_lookup L L' k H) as E.
  destruct (L !! k) as [l|], (L' !! k) as [l'|]; try discriminate; [|reflexivity].
  apply linkWidth_geom. simpl in E. congruence.
Qed.

Lemma member_geomEq offs i b L L' k :
  geomEq L L' -> member offs i b L k = member offs i b L' k.
Proof.
  intros H. unfold member. pose proof (geomEq_lookup L L' k H) as E.
  destruct (L !! k) as [l|], (L' !! k) as [l'|]; try discriminate; [|reflexivity].
  apply memberLink_geom. simpl in E. congruence.
Qed.

Lemma compareRefs_geomEq L L' b u v :
  geomEq L L' -> compareRefs L b u v = compareRefs L' b u v.
Proof.
  intros H. unfold compareRefs.
  pose proof (geomEq_lookup L L' u H) as Eu.
  pose proof (geomEq_lookup L L' v H) as Ev.
  destruct (L !! u) as [lu|], (L' !! u) as [lu'|]; try discriminate; [|reflexivity].
  destruct (L !! v) as [lv|], (L' !! v) as [lv'|]; try discriminate; [|reflexivity].
  simpl in Eu, Ev. apply compareLinks_geom; congruence.
Qed.

Lemma cursorAt_ext L L' c ks k :
  (forall j, widthAt L j = widthAt L' j) -> cursorAt L c ks k = cursorAt L' c ks k.
Proof.
  intros H. revert c. induction ks as [|k' ks IH]; intros c; simpl; [reflexivity|].
  destruct (Nat.eqb k' k); [reflexivity|]. now rewrite H, IH.
Qed.

Lemma totalWidth_geomEq L L' ks : geomEq L L' -> totalWidth L ks = totalWidth L' ks.
Proof.
  intros H. unfold totalWidth. generalize 0.
  induction ks as [|k ks IH]; intros c; simpl; [reflexivity|].
  pose proof (geomEq_lookup L L' k H) as E.
  destruct (L !! k) as [l|], (L' !! k) as [l'|]; try discriminate.
  - simpl in E. rewrite (linkWidth_geom l l') by congruence. apply IH.
  - apply IH.
Qed.

Lemma bucketOf_geomEq offs L L' i b :
  geomEq L L' -> bucketOf offs L i b = bucketOf offs L' i b.
Proof.
  intros H. unfold bucketOf. rewrite (geomEq_length _ _ H).
  apply List.filter_ext. intros k. now apply member_geomEq.
Qed.

Lemma sortedBucket_geomEq offs L L' i b :
  geomEq L L' -> sortedBucket offs L i b = sortedBucket offs L' i b.
Proof.
  intros H. unfold sortedBucket. rewrite (bucketOf_geomEq _ _ _ _ _ H).
  apply sort_ext. intros u v. now apply compareRefs_geomEq.
Qed.

Lemma edgeStart_geomEq offs L L' node i b k l l' :
  geomEq L L' -> geom l = geom l' ->
  edgeStart offs L node i b k l = edgeStart offs L' node i b k l'.
Proof.
  intros H Hl. unfold edgeStart, startCursor.
  rewrite (sortedBucket_geomEq _ _ _ _ _ H), (totalWidth_geomEq _ _ _ H).
  rewrite (cursorAt_ext L L') by (intros j; now apply widthAt_geomEq).
  now apply posOnEdgeOf_geom.
Qed.

Lemma endCoords_geomEq offs L L' node i b k l l' :
  geomEq L L' -> geom l = geom l' ->
  endCoords offs L node i b k l = endCoords offs L' node i b k l'.
Proof.
  intros H Hl. unfold endCoords.
  now rewrite (edgeStart_geomEq _ _ _ _ _ _ _ _ _ H Hl), (linkWidth_geom _ _ Hl).
Qed.

End GeomFacts.

Section BucketFacts.

Import Diagram Routing.

Variable offs : LinkOffsets.

Lemma geomEq_insert (L : list SankeyLink) k l l' :
  L !! k = Some l -> geom l' = geom l -> geomEq (<[k := l']> L) L.
Proof.
  intros Hl Hg. apply geomEq_intro. intros j.
  destruct (decide (k = j)) as [<-|Hne].
  - rewrite list_lookup_insert_eq by (eapply lookup_lt_Some; eauto).
    rewrite Hl. simpl. now rewrite Hg.
  - now rewrite list_lookup_insert_ne.
Qed.

Lemma placeLink_step node b E c (L : list SankeyLink) k l :
  L !! k = Some l ->
  placeLink offs node b E (c, L) k =
    (c + linkWidth l,
     <[k := setEnd b l (edgePoint node b (posOnEdgeOf offs b E c l + linkWidth l / 2))]> L).
Proof. intros H. unfold placeLink, setEnd. now rewrite H. Qed.

(** The loop of [getCoords] over a bucket without repetition: every
    link of the bucket gets the attachment computed from the cursor
    the loop has reached, every other link object is left as it was. *)
Lemma foldl_placeLink node b : forall ks c (L : list SankeyLink),
  NoDup ks -> (forall k, k ∈ ks -> (k < length L)%nat) ->
  let L' := snd (foldl (placeLink offs node b (edgeLengthOf node b)) (c, L) ks) in
  length L' = length L /\
  (forall k, k ∈ ks ->
     L' !! k = (fun l => setEnd b l (placedCoords offs node b L c ks k l)) <$> L !! k) /\
  (forall k, k ∉ ks -> L' !! k = L !! k).
Proof.
  induction ks as [|k0 ks IH]; intros c L Hnd Hin; cbn zeta; cbn [foldl].
  - split; [reflexivity|]. split; [|reflexivity].
    intros k Hk. now apply elem_of_nil in Hk.
  - apply NoDup_cons in Hnd as [Hk0 Hnd].
    assert (Hlt : (k0 < length L)%nat) by (apply Hin, list_elem_of_here).
    destruct (lookup_lt_is_Some_2 _ _ Hlt) as [l0 Hl0].
    rewrite (placeLink_step _ _ _ _ _ _ _ Hl0).
    set (l0' := setEnd b l0 _).
    assert (Hg : geomEq (<[k0 := l0']> L) L).
    { apply (geomEq_insert L k0 l0); [exact Hl0|apply geom_setEnd]. }
    specialize (IH (c + linkWidth l0) (<[k0 := l0']> L) Hnd).
    destruct IH as (Hlen & Hmem & Hout).
    { intros k Hk. rewrite length_insert. apply Hin. now apply list_elem_of_further. }
    rewrite length_insert in Hlen.
    split; [exact Hlen|]. split.
    + intros k Hk. apply elem_of_cons in Hk as [->|Hk].
      * rewrite Hout by exact Hk0.
        rewrite list_lookup_insert_eq by exact Hlt. rewrite Hl0. simpl.
        unfold placedCoords. simpl. now rewrite Nat.eqb_refl.
      * assert (Hne : k0 <> k) by (intros ->; contradiction).
        rewrite (Hmem k Hk), list_lookup_insert_ne by exact Hne.
        destruct (L !! k) as [l|]; [|reflexivity]. simpl. do 2 f_equal.
        unfold placedCoords. simpl.
        apply Nat.eqb_neq in Hne. rewrite Hne.
        rewrite (cursorAt_ext _ L) by (intros j; now apply widthAt_geomEq).
        unfold widthAt at 1. rewrite Hl0.
        reflexivity.
    + intros k Hk. apply not_elem_of_cons in Hk as [Hne Hk].
      rewrite (Hout k Hk). now rewrite list_lookup_insert_ne.
Qed.

Lemma getCoords_unfold node bucket b (L : list SankeyLink) :
  getCoords offs node bucket b L =
  let ks := JS.sort (compareRefs L b) bucket in
  snd (foldl (placeLink offs node b (edgeLengthOf node b))
             (startCursor L node b ks, L) ks).
Proof. destruct bucket; reflexivity. Qed.

(** One call of [getCoords] on a bucket of positions of [L]. *)
Lemma getCoords_lookup node bucket b (L : list SankeyLink) :
  NoDup bucket -> (forall k, k ∈ bucket -> (k < length L)%nat) ->
  let ks := JS.sort (compareRefs L b) bucket in
  let L' := getCoords offs node bucket b L in
  length L' = length L /\
  (forall k, k ∈ bucket ->
     L' !! k = (fun l => setEnd b l
                  (placedCoords offs node b L (startCursor L node b ks) ks k l))
               <$> L !! k) /\
  (forall k, k ∉ bucket -> L' !! k = L !! k).
Proof.
  intros Hnd Hin ks L'. subst L'. rewrite getCoords_unfold. fold ks. cbn zeta.
  destruct (foldl_placeLink node b ks (startCursor L node b ks) L)
    as (Hlen & Hmem & Hout).
  - now apply NoDup_sort.
  - intros k Hk. apply Hin. now apply elem_of_sort in Hk.
  - split; [exact Hlen|]. split.
    + intros k Hk. apply Hmem. now apply elem_of_sort.
    + intros k Hk. apply Hout. unfold ks. now rewrite elem_of_sort.
Qed.

Lemma getCoords_geomEq node bucket b (L : list SankeyLink) :
  NoDup bucket -> (forall k, k ∈ bucket -> (k < length L)%nat) ->
  geomEq (getCoords offs node bucket b L) L.
Proof.
  intros Hnd Hin.
  destruct (getCoords_lookup node bucket b L Hnd Hin) as (_ & Hmem & Hout).
  apply geomEq_intro. intros k.
  destruct (decide (k ∈ bucket)) as [Hk|Hk].
  - rewrite (Hmem k Hk). destruct (L !! k); [|reflexivity].
    simpl. now rewrite geom_setEnd.
  - now rewrite (Hout k Hk).
Qed.

End BucketFacts.

(** * The first loop: sides and buckets *)

Section SidesFacts.

Import Diagram Routing.

Variable offs : LinkOffsets.

(** The link object after the first loop has visited it. *)
Definition sidesSet (l : SankeyLink) : SankeyLink :=
  setTargetCoords
    (setSourceCoords l (withSide (sourceCoords l) (sourceSideOf offs l)))
    (withSide (targetCoords l) (targetSideOf offs l)).

Lemma geom_sidesSet l : geom (sidesSet l) = geom l.
Proof. reflexivity. Qed.

Lemma push_app (f : NodeBuckets) b k b' :
  push f b k b' = f b' ++ (if bucket_eqb b b' then [k] else []).
Proof.
  unfold push. destruct (bucket_eqb b b'); [reflexivity|].
  now rewrite app_nil_r.
Qed.

Lemma bucket_eqb_out s b :
  bucket_eqb (Outgoing, s) b =
  match fst b with Outgoing => side_eqb s (snd b) | Incoming => false end.
Proof. destruct b as [[] ?]; reflexivity. Qed.

Lemma bucket_eqb_in s b :
  bucket_eqb (Incoming, s) b =
  match fst b with Incoming => side_eqb s (snd b) | Outgoing => false end.
Proof. destruct b as [[] ?]; reflexivity. Qed.

(** What one visit pushes to bucket [b] of node [i]. *)
Lemma pushed_member i b l (k : nat) :
  (if decide (index (source l) = i)
   then (if bucket_eqb (Outgoing, sourceSideOf offs l) b then [k] else [])
   else []) ++
  (if decide (index (target l) = i)
   then (if bucket_eqb (Incoming, targetSideOf offs l) b then [k] else [])
   else [])
  = if memberLink offs i b l then [k] else [].
Proof.
  unfold memberLink. rewrite bucket_eqb_out, bucket_eqb_in.
  destruct b as [[] s]; simpl;
    destruct (decide (index (source l) = i)) as [Hs|Hs];
    destruct (decide (index (target l) = i)) as [Ht|Ht];
    try rewrite (proj2 (Nat.eqb_eq _ _) Hs);
    try rewrite (proj2 (Nat.eqb_neq _ _) Hs);
    try rewrite (proj2 (Nat.eqb_eq _ _) Ht);
    try rewrite (proj2 (Nat.eqb_neq _ _) Ht);
    simpl; rewrite ?app_nil_r; reflexivity.
Qed.

(** One visit of the first loop that does not throw. *)
Lemma determineSide_inv B (L : list SankeyLink) k B' L' :
  determineSide offs (B, L) k = Some (B', L') ->
  exists l, L !! k = Some l /\
    (index (source l) < length B)%nat /\ (index (target l) < length B)%nat /\
    L' = <[k := sidesSet l]> L /\ length B' = length B /\
    (forall i f, B !! i = Some f ->
       exists f', B' !! i = Some f' /\
         forall b, f' b = f b ++ if memberLink offs i b l then [k] else []).
Proof.
  unfold determineSide. intros H.
  destruct (L !! k) as [l|] eqn:Hl; [|discriminate].
  destruct (B !! index (source l)) as [fs|] eqn:Hfs; [|discriminate].
  set (B1 := <[index (source l) := push fs (Outgoing, sourceSideOf offs l) k]> B) in *.
  destruct (B1 !! index (target l)) as [ft|] eqn:Hft; [|discriminate].
  injection H as <- <-.
  assert (Hs : (index (source l) < length B)%nat) by (eapply lookup_lt_Some; eauto).
  assert (Ht : (index (target l) < length B)%nat).
  { apply lookup_lt_Some in Hft. unfold B1 in Hft. now rewrite length_insert in Hft. }
  exists l. split; [reflexivity|]. split; [exact Hs|]. split; [exact Ht|].
  split; [reflexivity|]. split; [unfold B1; now rewrite !length_insert|].
  intros i f Hf.
  assert (H1 : exists f1, B1 !! i = Some f1 /\
            forall b, f1 b = f b ++
              (if decide (index (source l) = i)
               then (if bucket_eqb (Outgoing, sourceSideOf offs l) b then [k] else [])
               else [])).
  { unfold B1. destruct (decide (index (source l) = i)) as [E|E].
    - subst i. rewrite list_lookup_insert_eq by exact Hs.
      assert (Ef : Some fs = Some f)
        by (etransitivity; [symmetry; exact Hfs|exact Hf]).
      injection Ef as <-.
      eexists. split; [reflexivity|]. intros b. now rewrite push_app.
    - rewrite list_lookup_insert_ne by exact E.
      exists f. split; [exact Hf|]. intros b. now rewrite app_nil_r. }
  destruct H1 as (f1 & Hf1 & Hf1b).
  destruct (decide (index (target l) = i)) as [E|E].
  - subst i. rewrite list_lookup_insert_eq
      by (unfold B1; now rewrite length_insert).
    eexists. split; [reflexivity|]. intros b. rewrite push_app.
    assert (Ef : Some f1 = Some ft)
      by (etransitivity; [symmetry; exact Hf1|exact Hft]).
    injection Ef as <-.
    rewrite Hf1b, <- app_assoc. f_equal.
    rewrite <- (pushed_member (index (target l)) b l k).
    destruct (decide (index (target l) = index (target l))); [|contradiction].
    reflexivity.
  - rewrite list_lookup_insert_ne by exact E.
    exists f1. split; [exact Hf1|]. intros b. rewrite Hf1b. f_equal.
    rewrite <- (pushed_member i b l k).
    destruct (decide (index (target l) = i)); [contradiction|].
    now rewrite app_nil_r.
Qed.

Lemma determineSide_Some B (L : list SankeyLink) k l :
  L !! k = Some l ->
  (index (source l) < length B)%nat -> (index (target l) < length B)%nat ->
  is_Some (determineSide offs (B, L) k).
Proof.
  intros Hl Hs Ht. unfold determineSide. rewrite Hl.
  destruct (lookup_lt_is_Some_2 _ _ Hs) as [fs ->].
  assert (Ht' : (index (target l) <
            length (<[index (source l) := push fs (Outgoing, sourceSideOf offs l) k]> B))%nat)
    by now rewrite length_insert.
  destruct (lookup_lt_is_Some_2 _ _ Ht') as [ft ->].
  eexists. reflexivity.
Qed.

Lemma member_lookup i b (L : list SankeyLink) k l :
  L !! k = Some l -> member offs i b L k = memberLink offs i b l.
Proof. intros H. unfold member. now rewrite H. Qed.

(** The whole first loop, when it does not throw: every visited link
    had both endpoints among the bucket keys, the link objects keep
    their geometry, and bucket [b] of node [i] has received, in order,
    the visited links that attach to node [i] through [b]. *)
Lemma determineSides_inv : forall ks B (L : list SankeyLink) B' L',
  NoDup ks ->
  determineSides offs ks (B, L) = Some (B', L') ->
  length B' = length B /\ geomEq L' L /\
  (forall k, k ∈ ks -> exists l, L !! k = Some l /\
     (index (source l) < length B)%nat /\ (index (target l) < length B)%nat) /\
  (forall i f, B !! i = Some f ->
     exists f', B' !! i = Some f' /\
       forall b, f' b = f b ++ List.filter (member offs i b L) ks).
Proof.
  induction ks as [|k ks IH]; intros B L B' L' Hnd H; cbn [determineSides] in H.
  - inversion H; subst. split; [reflexivity|]. split; [apply geomEq_refl|].
    split; [intros k Hk; now apply elem_of_nil in Hk|].
    intros i f Hf. exists f. split; [exact Hf|]. intros b. simpl. now rewrite app_nil_r.
  - apply NoDup_cons in Hnd as [Hk Hnd].
    destruct (determineSide offs (B, L) k) as [[B1 L1]|] eqn:E1; [|discriminate].
    apply determineSide_inv in E1 as (l & Hl & Hs & Ht & -> & HB1 & Hf1).
    assert (Hg1 : geomEq (<[k := sidesSet l]> L) L).
    { apply (geomEq_insert L k l); [exact Hl|apply geom_sidesSet]. }
    destruct (IH _ _ _ _ Hnd H) as (HB' & Hg & Hin & Hf').
    split; [congruence|]. split; [eapply geomEq_trans; eauto|]. split.
    + intros k' Hk'. apply elem_of_cons in Hk' as [->|Hk'].
      * exists l. auto.
      * destruct (Hin k' Hk') as (l' & Hl' & Hs' & Ht').
        rewrite list_lookup_insert_ne in Hl' by (intros ->; contradiction).
        exists l'. rewrite HB1 in Hs', Ht'. auto.
    + intros i f Hf. destruct (Hf1 i f Hf) as (f1 & Hf1i & Hf1b).
      destruct (Hf' i f1 Hf1i) as (f' & Hf'i & Hf'b).
      exists f'. split; [exact Hf'i|]. intros b.
      rewrite Hf'b, Hf1b, <- app_assoc. f_equal. simpl.
      rewrite (member_lookup i b L k l Hl).
      rewrite (List.filter_ext _ (member offs i b L))
        by (intros j; now apply member_geomEq).
      now destruct (memberLink offs i b l).
Qed.

Lemma determineSides_Some : forall ks B (L : list SankeyLink),
  NoDup ks ->
  (forall k, k ∈ ks -> exists l, L !! k = Some l /\
     (index (source l) < length B)%nat /\ (index (target l) < length B)%nat) ->
  is_Some (determineSides offs ks (B, L)).
Proof.
  induction ks as [|k ks IH]; intros B L Hnd Hin; cbn [determineSides].
  - eexists. reflexivity.
  - apply NoDup_cons in Hnd as [Hk Hnd].
    destruct (Hin k (list_elem_of_here _ _)) as (l & Hl & Hs & Ht).
    destruct (determineSide_Some B L k l Hl Hs Ht) as [[B1 L1] E1].
    rewrite E1.
    apply determineSide_inv in E1 as (l1 & Hl1 & _ & _ & -> & HB1 & _).
    apply IH; [exact Hnd|].
    intros k' Hk'. destruct (Hin k' (list_elem_of_further _ _ _ Hk')) as (l' & Hl' & Hs' & Ht').
    exists l'. rewrite list_lookup_insert_ne by (intros ->; contradiction).
    rewrite HB1. auto.
Qed.

End SidesFacts.

(** * The second loop: every end of every link gets its attachment *)

Section RouteFacts.

Import Diagram Routing.

Variable offs : LinkOffsets.
Variable ns : list SankeyNode.
Variable L0 : list SankeyLink.

Lemma elem_of_bucketOf i b k :
  k ∈ bucketOf offs L0 i b <-> member offs i b L0 k = true.
Proof.
  unfold bucketOf. rewrite list_elem_of_In, List.filter_In, in_seq. split.
  - tauto.
  - intros H. split; [|exact H]. split; [lia|]. simpl.
    unfold member in H. destruct (L0 !! k) eqn:E; [|discriminate].
    eapply lookup_lt_Some; eauto.
Qed.

Lemma NoDup_bucketOf i b : NoDup (bucketOf offs L0 i b).
Proof.
  unfold bucketOf. apply NoDup_ListNoDup, List.NoDup_filter, seq_NoDup.
Qed.

Lemma bucketOf_lt i b k : k ∈ bucketOf offs L0 i b -> (k < length L0)%nat.
Proof.
  unfold bucketOf. rewrite list_elem_of_In, List.filter_In, in_seq. lia.
Qed.

Lemma side_eqb_eq s s' : side_eqb s s' = true <-> s = s'.
Proof. destruct s, s'; simpl; split; congruence. Qed.

Lemma memberLink_source i s l :
  memberLink offs i (Outgoing, s) l = true <->
  index (source l) = i /\ sourceSideOf offs l = s.
Proof.
  unfold memberLink. simpl. now rewrite andb_true_iff, Nat.eqb_eq, side_eqb_eq.
Qed.

Lemma memberLink_target i s l :
  memberLink offs i (Incoming, s) l = true <->
  index (target l) = i /\ targetSideOf offs l = s.
Proof.
  unfold memberLink. simpl. now rewrite andb_true_iff, Nat.eqb_eq, side_eqb_eq.
Qed.

(** One call of [getCoords] on the bucket [b] of node [i], from link
    objects that have the geometry of [L0]. *)
Lemma getCoords_bucket i node b (L : list SankeyLink) :
  geomEq L L0 ->
  let L' := getCoords offs node (bucketOf offs L0 i b) b L in
  geomEq L' L0 /\
  forall k l, L !! k = Some l ->
    L' !! k = Some (if member offs i b L0 k
                    then setEnd b l (endCoords offs L0 node i b k l)
                    else l).
Proof.
  intros Hg L'.
  assert (Hlt : forall k, k ∈ bucketOf offs L0 i b -> (k < length L)%nat).
  { intros k Hk. rewrite (geomEq_length _ _ Hg). now apply bucketOf_lt in Hk. }
  destruct (getCoords_lookup offs node _ b L (NoDup_bucketOf i b) Hlt)
    as (Hlen & Hmem & Hout).
  split.
  - eapply geomEq_trans; [|exact Hg].
    apply getCoords_geomEq; [apply NoDup_bucketOf|exact Hlt].
  - intros k l Hl. subst L'.
    destruct (member offs i b L0 k) eqn:Em.
    + rewrite (Hmem k) by now apply elem_of_bucketOf.
      rewrite Hl. simpl. do 2 f_equal.
      unfold placedCoords, endCoords, edgeStart, sortedBucket, startCursor.
      rewrite (sort_ext _ (compareRefs L0 b))
        by (intros u v; now apply compareRefs_geomEq).
      rewrite (totalWidth_geomEq _ _ _ Hg).
      rewrite (cursorAt_ext L L0) by (intros j; now apply widthAt_geomEq).
      reflexivity.
    + rewrite (Hout k); [exact Hl|].
      rewrite elem_of_bucketOf. congruence.
Qed.

(** The source end, respectively target end, of the link at [k] has
    its final attachment record. *)
Definition srcOK (L : list SankeyLink) (k : nat) : Prop :=
  forall l0, L0 !! k = Some l0 ->
    exists node l, ns !! index (source l0) = Some node /\ L !! k = Some l /\
      sourceCoords l =
        Some (endCoords offs L0 node (index (source l0)) (sourceBucket offs l0) k l0).

Definition tgtOK (L : list SankeyLink) (k : nat) : Prop :=
  forall l0, L0 !! k = Some l0 ->
    exists node l, ns !! index (target l0) = Some node /\ L !! k = Some l /\
      targetCoords l =
        Some (endCoords offs L0 node (index (target l0)) (targetBucket offs l0) k l0).

Lemma sourceCoords_setEnd b l c :
  sourceCoords (setEnd b l c) =
  match fst b with Outgoing => Some c | Incoming => sourceCoords l end.
Proof. destruct b as [[] s]; reflexivity. Qed.

Lemma targetCoords_setEnd b l c :
  targetCoords (setEnd b l c) =
  match fst b with Incoming => Some c | Outgoing => targetCoords l end.
Proof. destruct b as [[] s]; reflexivity. Qed.

Lemma getCoords_step i node b (L : list SankeyLink) :
  geomEq L L0 -> ns !! i = Some node ->
  let L' := getCoords offs node (bucketOf offs L0 i b) b L in
  geomEq L' L0 /\
  (forall k, srcOK L k -> srcOK L' k) /\
  (forall k, tgtOK L k -> tgtOK L' k) /\
  (forall k l0, L0 !! k = Some l0 -> index (source l0) = i ->
     b = sourceBucket offs l0 -> srcOK L' k) /\
  (forall k l0, L0 !! k = Some l0 -> index (target l0) = i ->
     b = targetBucket offs l0 -> tgtOK L' k).
Proof.
  intros Hg Hn L'.
  destruct (getCoords_bucket i node b L Hg) as (Hg' & Hlk). fold L' in Hg', Hlk.
  assert (Hsrc : forall k l0 l, L0 !! k = Some l0 -> L !! k = Some l ->
            member offs i b L0 k = true -> fst b = Outgoing ->
            ns !! index (source l0) = Some node /\
            endCoords offs L0 node i b k l =
            endCoords offs L0 node (index (source l0)) (sourceBucket offs l0) k l0).
  { intros k l0 l Hl0 Hl Hm Hb. rewrite (member_lookup offs i b L0 k l0 Hl0) in Hm.
    destruct b as [d s]. simpl in Hb. subst d.
    apply memberLink_source in Hm as [<- <-]. split; [exact Hn|].
    apply endCoords_geomEq; [apply geomEq_refl|].
    destruct (geomEq_lookup_Some L L0 k l Hg Hl) as (l0' & Hl0' & Hgl). congruence. }
  assert (Htgt : forall k l0 l, L0 !! k = Some l0 -> L !! k = Some l ->
            member offs i b L0 k = true -> fst b = Incoming ->
            ns !! index (target l0) = Some node /\
            endCoords offs L0 node i b k l =
            endCoords offs L0 node (index (target l0)) (targetBucket offs l0) k l0).
  { intros k l0 l Hl0 Hl Hm Hb. rewrite (member_lookup offs i b L0 k l0 Hl0) in Hm.
    destruct b as [d s]. simpl in Hb. subst d.
    apply memberLink_target in Hm as [<- <-]. split; [exact Hn|].
    apply endCoords_geomEq; [apply geomEq_refl|].
    destruct (geomEq_lookup_Some L L0 k l Hg Hl) as (l0' & Hl0' & Hgl). congruence. }
  split; [exact Hg'|]. split; [|split; [|split]].
  - intros k Hk l0 Hl0. destruct (Hk l0 Hl0) as (nd & l & Hnd & Hl & Hc).
    exists nd. eexists. split; [exact Hnd|]. split; [apply (Hlk k l Hl)|].
    destruct (member offs i b L0 k) eqn:Em; [|exact Hc].
    rewrite sourceCoords_setEnd.
    pose proof (Hsrc k l0 l Hl0 Hl Em) as Hs'.
    destruct (fst b); [|exact Hc].
    destruct (Hs' eq_refl) as [Hn' ->]. congruence.
  - intros k Hk l0 Hl0. destruct (Hk l0 Hl0) as (nd & l & Hnd & Hl & Hc).
    exists nd. eexists. split; [exact Hnd|]. split; [apply (Hlk k l Hl)|].
    destruct (member offs i b L0 k) eqn:Em; [|exact Hc].
    rewrite targetCoords_setEnd.
    pose proof (Htgt k l0 l Hl0 Hl Em) as Ht'.
    destruct (fst b); [exact Hc|].
    destruct (Ht' eq_refl) as [Hn' ->]. congruence.
  - intros k l0 Hl0 Hi Hb l0' Hl0'.
    assert (l0' = l0) by congruence. subst l0'.
    destruct (geomEq_lookup_Some L0 L k l0 (geomEq_sym _ _ Hg) Hl0) as (l & Hl & Hgl).
    assert (Em : member offs i b L0 k = true).
    { rewrite (member_lookup offs i b L0 k l0 Hl0). subst b.
      apply memberLink_source. auto. }
    assert (Eb : fst b = Outgoing) by (subst b; reflexivity).
    destruct (Hsrc k l0 l Hl0 Hl Em Eb) as [Hn' Hc].
    exists node. eexists. split; [exact Hn'|]. split; [apply (Hlk k l Hl)|].
    rewrite Em, sourceCoords_setEnd, Eb. now rewrite Hc.
  - intros k l0 Hl0 Hi Hb l0' Hl0'.
    assert (l0' = l0) by congruence. subst l0'.
    destruct (geomEq_lookup_Some L0 L k l0 (geomEq_sym _ _ Hg) Hl0) as (l & Hl & Hgl).
    assert (Em : member offs i b L0 k = true).
    { rewrite (member_lookup offs i b L0 k l0 Hl0). subst b.
      apply memberLink_target. auto. }
    assert (Eb : fst b = Incoming) by (subst b; reflexivity).
    destruct (Htgt k l0 l Hl0 Hl Em Eb) as [Hn' Hc].
    exists node. eexists. split; [exact Hn'|]. split; [apply (Hlk k l Hl)|].
    rewrite Em, targetCoords_setEnd, Eb. now rewrite Hc.
Qed.

(** The bucket map the first loop has built. *)
Variable B : list NodeBuckets.
Hypothesis HBlen : length B = length ns.
Hypothesis HB : forall i f, B !! i = Some f -> forall b, f b = bucketOf offs L0 i b.

Lemma routeNode_step i node (L : list SankeyLink) :
  geomEq L L0 -> ns !! i = Some node ->
  let L' := routeNode offs B L i node in
  geomEq L' L0 /\
  (forall k, srcOK L k -> srcOK L' k) /\
  (forall k, tgtOK L k -> tgtOK L' k) /\
  (forall k l0, L0 !! k = Some l0 -> index (source l0) = i -> srcOK L' k) /\
  (forall k l0, L0 !! k = Some l0 -> index (target l0) = i -> tgtOK L' k).
Proof.
  intros Hg Hn L'.
  assert (Hi : (i < length B)%nat) by (rewrite HBlen; eapply lookup_lt_Some; eauto).
  subst L'. unfold routeNode.
  destruct (B !! i) as [f|] eqn:Hf;
    [|apply lookup_ge_None in Hf; exfalso;
      exact (Nat.lt_irrefl _ (Nat.lt_le_trans _ _ _ Hi Hf))].
  pose proof (HB i f Hf) as Hfb. rewrite !Hfb.
  destruct (getCoords_step i node (Outgoing, Top) L Hg Hn) as (g1 & s1 & t1 & a1 & b1).
  destruct (getCoords_step i node (Outgoing, Bottom) _ g1 Hn) as (g2 & s2 & t2 & a2 & b2).
  destruct (getCoords_step i node (Outgoing, Left) _ g2 Hn) as (g3 & s3 & t3 & a3 & b3).
  destruct (getCoords_step i node (Outgoing, Right) _ g3 Hn) as (g4 & s4 & t4 & a4 & b4).
  destruct (getCoords_step i node (Incoming, Top) _ g4 Hn) as (g5 & s5 & t5 & a5 & b5).
  destruct (getCoords_step i node (Incoming, Bottom) _ g5 Hn) as (g6 & s6 & t6 & a6 & b6).
  destruct (getCoords_step i node (Incoming, Left) _ g6 Hn) as (g7 & s7 & t7 & a7 & b7).
  destruct (getCoords_step i node (Incoming, Right) _ g7 Hn) as (g8 & s8 & t8 & a8 & b8).
  split; [exact g8|]. split; [|split; [|split]].
  - intros k H. apply s8, s7, s6, s5, s4, s3, s2, s1, H.
  - intros k H. apply t8, t7, t6, t5, t4, t3, t2, t1, H.
  - intros k l0 Hl0 Hs. unfold sourceBucket in *.
    destruct (sourceSideOf offs l0) eqn:E.
    + apply s8, s7, s6, s5, s4, s3, s2. apply (a1 k l0 Hl0 Hs). now rewrite E.
    + apply s8, s7, s6, s5, s4, s3. apply (a2 k l0 Hl0 Hs). now rewrite E.
    + apply s8, s7, s6, s5, s4. apply (a3 k l0 Hl0 Hs). now rewrite E.
    + apply s8, s7, s6, s5. apply (a4 k l0 Hl0 Hs). now rewrite E.
  - intros k l0 Hl0 Ht. unfold targetBucket in *.
    destruct (targetSideOf offs l0) eqn:E.
    + apply t8, t7, t6. apply (b5 k l0 Hl0 Ht). now rewrite E.
    + apply t8, t7. apply (b6 k l0 Hl0 Ht). now rewrite E.
    + apply t8. apply (b7 k l0 Hl0 Ht). now rewrite E.
    + apply (b8 k l0 Hl0 Ht). now rewrite E.
Qed.

Lemma routeNodes_step : forall rest i (L : list SankeyLink),
  (forall j n, rest !! j = Some n -> ns !! (i + j)%nat = Some n) ->
  geomEq L L0 ->
  let L' := routeNodes offs B i rest L in
  geomEq L' L0 /\
  (forall k, srcOK L k -> srcOK L' k) /\
  (forall k, tgtOK L k -> tgtOK L' k) /\
  (forall k l0, L0 !! k = Some l0 ->
     (i <= index (source l0) < i + length rest)%nat -> srcOK L' k) /\
  (forall k l0, L0 !! k = Some l0 ->
     (i <= index (target l0) < i + length rest)%nat -> tgtOK L' k).
Proof.
  induction rest as [|n rest IH]; intros i L Hrest Hg; cbn [routeNodes]; cbn zeta.
  - split; [exact Hg|]. split; [auto|]. split; [auto|].
    simpl. split; intros; lia.
  - assert (Hn : ns !! i = Some n).
    { specialize (Hrest 0%nat n eq_refl). now rewrite Nat.add_0_r in Hrest. }
    destruct (routeNode_step i n L Hg Hn) as (g1 & s1 & t1 & a1 & b1).
    assert (Hrest' : forall j m, rest !! j = Some m -> ns !! (S i + j)%nat = Some m).
    { intros j m Hj. specialize (Hrest (S j) m Hj).
      now replace (S i + j)%nat with (i + S j)%nat by lia. }
    destruct (IH (S i) _ Hrest' g1) as (g2 & s2 & t2 & a2 & b2).
    split; [exact g2|]. split; [|split; [|split]].
    + intros k H. apply s2, s1, H.
    + intros k H. apply t2, t1, H.
    + intros k l0 Hl0 Hr. simpl in Hr.
      destruct (decide (index (source l0) = i)) as [E|E].
      * apply s2. now apply (a1 k l0 Hl0).
      * apply (a2 k l0 Hl0). lia.
    + intros k l0 Hl0 Hr. simpl in Hr.
      destruct (decide (index (target l0) = i)) as [E|E].
      * apply t2. now apply (b1 k l0 Hl0).
      * apply (b2 k l0 Hl0). lia.
Qed.

End RouteFacts.

(** * The routed graph in closed form *)

Section RouteSpec.

Import Diagram Routing.

Variable offs : LinkOffsets.

Lemma NoDup_seq0 m : NoDup (seq 0 m).
Proof. apply NoDup_ListNoDup, seq_NoDup. Qed.

Lemma elem_of_seq0 m k : k ∈ seq 0 m <-> (k < m)%nat.
Proof. rewrite list_elem_of_In, in_seq. lia. Qed.

Lemma link_eta l l0 cs ct :
  geom l = geom l0 -> sourceCoords l = cs -> targetCoords l = ct ->
  l = mkLink (source l0) (target l0) (value l0) (realValue l0) (type l0)
             (width l0) cs ct.
Proof.
  destruct l, l0. unfold geom. simpl. intros H <- <-.
  injection H. intros. subst. reflexivity.
Qed.

(** The routing that does not throw: the graph was well linked, the
    nodes are untouched, and every link has, at both ends, the
    attachment record of its bucket. *)
Theorem route_spec g g' :
  route offs g = Some g' ->
  wellLinked g /\ nodes g' = nodes g /\
  length (links g') = length (links g) /\
  forall k l, links g !! k = Some l ->
    exists ns nt,
      nodes g !! index (source l) = Some ns /\
      nodes g !! index (target l) = Some nt /\
      links g' !! k = Some (routedLink offs (links g) ns nt k l).
Proof.
  unfold route. intros H.
  destruct (determineSides offs (seq 0 (length (links g)))
              (map (fun _ => emptyBuckets) (nodes g), links g))
    as [[B L1]|] eqn:E; [|discriminate].
  injection H as <-. simpl.
  apply determineSides_inv in E as (HBlen & Hg1 & Hin & HBf); [|apply NoDup_seq0].
  rewrite length_map in HBlen.
  assert (Hwl : wellLinked g).
  { intros k l Hl. destruct (Hin k) as (l' & Hl' & Hs & Ht).
    - apply elem_of_seq0. eapply lookup_lt_Some; eauto.
    - rewrite length_map in Hs, Ht. assert (l' = l) by congruence. now subst. }
  assert (HB : forall i f, B !! i = Some f ->
               forall b, f b = bucketOf offs (links g) i b).
  { intros i f Hf b.
    assert (Hi : (i < length (nodes g))%nat).
    { rewrite <- HBlen. eapply lookup_lt_Some; eauto. }
    destruct (lookup_lt_is_Some_2 _ _ Hi) as [n Hn].
    destruct (HBf i emptyBuckets) as (f' & Hf' & Hfb).
    { change (map (fun _ => emptyBuckets) (nodes g))
        with ((fun _ : SankeyNode => emptyBuckets) <$> nodes g).
      rewrite list_lookup_fmap, Hn. reflexivity. }
    assert (Ef : Some f' = Some f)
      by (etransitivity; [symmetry; exact Hf'|exact Hf]).
    injection Ef as <-. rewrite Hfb. reflexivity. }
  destruct (routeNodes_step offs (nodes g) (links g) B HBlen HB (nodes g) 0%nat L1)
    as (Hg2 & _ & _ & Hsrc & Htgt); [auto|exact Hg1|].
  split; [exact Hwl|]. split; [reflexivity|].
  split; [now apply geomEq_length|].
  intros k l Hl. destruct (Hwl k l Hl) as [Hs Ht].
  destruct (Hsrc k l Hl (conj (Nat.le_0_l _) Hs) l Hl) as (nsrc & l1 & Hns & Hl1 & Hc1).
  destruct (Htgt k l Hl (conj (Nat.le_0_l _) Ht) l Hl) as (ntgt & l2 & Hnt & Hl2 & Hc2).
  assert (l2 = l1) by congruence. subst l2.
  exists nsrc, ntgt. split; [exact Hns|]. split; [exact Hnt|].
  rewrite Hl1. f_equal. unfold routedLink.
  apply link_eta; [|exact Hc1|exact Hc2].
  destruct (geomEq_lookup_Some _ _ k l1 Hg2 Hl1) as (l' & Hl' & Hgl). congruence.
Qed.

(** The routing throws only on a graph that is not well linked. *)
Lemma route_wellLinked g : wellLinked g -> is_Some (route offs g).
Proof.
  intros Hwl. unfold route.
  destruct (determineSides_Some offs (seq 0 (length (links g)))
              (map (fun _ => emptyBuckets) (nodes g)) (links g)) as [[B L1] ->].
  - apply NoDup_seq0.
  - intros k Hk. apply elem_of_seq0 in Hk.
    destruct (lookup_lt_is_Some_2 _ _ Hk) as [l Hl]. exists l.
    rewrite length_map. split; [exact Hl|]. exact (Hwl k l Hl).
  - eexists. reflexivity.
Qed.

End RouteSpec.

(** * Cursor arithmetic *)

Section CursorFacts.

Import Diagram Routing.

Variable L : list SankeyLink.

Lemma totalWidth_from (ks : list nat) : forall c,
  foldl (fun sum k => match L !! k with
                      | Some l => sum + linkWidth l
                      | None => sum
                      end) c ks == c + sumWidths L ks.
Proof.
  induction ks as [|k ks IH]; intros c; simpl.
  - lra.
  - rewrite IH. unfold widthAt. destruct (L !! k); lra.
Qed.

Lemma totalWidth_sum ks : totalWidth L ks == sumWidths L ks.
Proof. unfold totalWidth. rewrite totalWidth_from. lra. Qed.

Lemma sumWidths_perm ks ks' : ks ≡ₚ ks' -> sumWidths L ks == sumWidths L ks'.
Proof.
  induction 1; simpl; lra.
Qed.

Lemma cursorAt_sum ks k : forall c,
  cursorAt L c ks k == c + sumWidths L (prefixBefore ks k).
Proof.
  induction ks as [|k' ks IH]; intros c; simpl.
  - lra.
  - destruct (Nat.eqb k' k); simpl; [lra|]. rewrite IH. lra.
Qed.

Lemma sumWidths_nonneg ks :
  (forall k, k ∈ ks -> 0 <= widthAt L k) -> 0 <= sumWidths L ks.
Proof.
  induction ks as [|k ks IH]; intros H; simpl; [lra|].
  pose proof (H k (list_elem_of_here _ _)).
  pose proof (IH (fun j Hj => H j (list_elem_of_further _ _ _ Hj))). lra.
Qed.

Lemma prefixBefore_nonneg ks k :
  (forall j, j ∈ ks -> 0 <= widthAt L j) -> 0 <= sumWidths L (prefixBefore ks k).
Proof.
  induction ks as [|k' ks IH]; intros H; simpl; [lra|].
  destruct (Nat.eqb k' k); simpl; [lra|].
  pose proof (H k' (list_elem_of_here _ _)).
  pose proof (IH (fun j Hj => H j (list_elem_of_further _ _ _ Hj))). lra.
Qed.

(** A link of the bucket ends no later than the whole bundle. *)
Lemma prefixBefore_fits ks k :
  (forall j, j ∈ ks -> 0 <= widthAt L j) -> k ∈ ks ->
  sumWidths L (prefixBefore ks k) + widthAt L k <= sumWidths L ks.
Proof.
  induction ks as [|k' ks IH]; intros H Hk; simpl.
  - now apply elem_of_nil in Hk.
  - destruct (Nat.eqb k' k) eqn:E; simpl.
    + apply Nat.eqb_eq in E. subst k'.
      pose proof (sumWidths_nonneg ks (fun j Hj => H j (list_elem_of_further _ _ _ Hj))).
      lra.
    + apply Nat.eqb_neq in E.
      apply elem_of_cons in Hk as [->|Hk]; [contradiction|].
      pose proof (IH (fun j Hj => H j (list_elem_of_further _ _ _ Hj)) Hk). lra.
Qed.

(** Of two different links of a bucket, one ends before the other
    starts. *)
Lemma prefixBefore_apart ks k1 k2 :
  (forall j, j ∈ ks -> 0 <= widthAt L j) -> k1 ∈ ks -> k2 ∈ ks -> k1 <> k2 ->
  sumWidths L (prefixBefore ks k1) + widthAt L k1 <= sumWidths L (prefixBefore ks k2) \/
  sumWidths L (prefixBefore ks k2) + widthAt L k2 <= sumWidths L (prefixBefore ks k1).
Proof.
  induction ks as [|k' ks IH]; intros H H1 H2 Hne.
  - now apply elem_of_nil in H1.
  - assert (Hr : forall j, j ∈ ks -> 0 <= widthAt L j)
      by (intros j Hj; apply H; now apply list_elem_of_further).
    simpl.
    destruct (Nat.eqb k' k1) eqn:E1; destruct (Nat.eqb k' k2) eqn:E2; simpl.
    + apply Nat.eqb_eq in E1, E2. congruence.
    + apply Nat.eqb_eq in E1. subst k'. left.
      pose proof (prefixBefore_nonneg ks k2 Hr). lra.
    + apply Nat.eqb_eq in E2. subst k'. right.
      pose proof (prefixBefore_nonneg ks k1 Hr). lra.
    + apply Nat.eqb_neq in E1, E2.
      apply elem_of_cons in H1 as [->|H1]; [contradiction|].
      apply elem_of_cons in H2 as [->|H2]; [contradiction|].
      destruct (IH Hr H1 H2 Hne); [left|right]; lra.
Qed.

Lemma clamp_inside p E lw : 0 <= p -> p <= E - lw -> clamp p E lw == p.
Proof.
  intros H0 H1. unfold clamp.
  rewrite (Q.min_l p (E - lw)) by exact H1. now apply Q.max_r.
Qed.

Lemma clamp_compat p p' E lw : p == p' -> clamp p E lw == clamp p' E lw.
Proof. intros H. unfold clamp. now rewrite H. Qed.

Lemma widthAt_lookup k l : L !! k = Some l -> widthAt L k = linkWidth l.
Proof. intros H. unfold widthAt. now rewrite H. Qed.

End CursorFacts.

(** * Routing: what a routed graph looks like *)

Section RoutedGraph.

Import Diagram Routing.

Variable offs : LinkOffsets.

Lemma geom_routedLink L ns nt k l : geom (routedLink offs L ns nt k l) = geom l.
Proof. destruct l. reflexivity. Qed.

Lemma route_geomEq g g' : route offs g = Some g' -> geomEq (links g') (links g).
Proof.
  intros H. apply route_spec in H as (_ & _ & Hlen & Hlk).
  apply geomEq_intro. intros k.
  destruct (links g !! k) as [l|] eqn:Hl.
  - destruct (Hlk k l Hl) as (ns & nt & _ & _ & ->). simpl.
    now rewrite geom_routedLink.
  - apply lookup_ge_None in Hl. rewrite <- Hlen in Hl.
    apply lookup_ge_None in Hl. now rewrite Hl.
Qed.

(** The routing reads the geometry only: graphs with the same nodes
    and the same link geometry are routed alike, whatever attachment
    records their links held before. *)
Lemma route_geom g1 g2 :
  nodes g1 = nodes g2 -> geomEq (links g1) (links g2) ->
  route offs g1 = route offs g2.
Proof.
  assert (Hwl : forall g g', nodes g = nodes g' -> geomEq (links g) (links g') ->
                  wellLinked g -> wellLinked g').
  { intros g g' Hn Hg H k l' Hl'.
    destruct (geomEq_lookup_Some _ _ k l' (geomEq_sym _ _ Hg) Hl') as (l & Hl & Hgl).
    apply geom_fields in Hgl as (Hs & Ht & _).
    rewrite <- Hn, Hs, Ht. exact (H k l Hl). }
  assert (Hone : forall g g' r, nodes g = nodes g' -> geomEq (links g) (links g') ->
                   route offs g = Some r -> route offs g' = Some r).
  { intros g g' r Hn Hg Hr.
    pose proof (route_spec offs g r Hr) as (Hw & Hnr & Hlen & Hlk).
    destruct (route_wellLinked offs g' (Hwl g g' Hn Hg Hw)) as [r' Hr'].
    rewrite Hr'. f_equal.
    pose proof (route_spec offs g' r' Hr') as (_ & Hnr' & Hlen' & Hlk').
    destruct r as [rn rl], r' as [rn' rl']. simpl in *. f_equal; [congruence|].
    apply list_eq. intros k.
    destruct (links g !! k) as [l|] eqn:Hl.
    - destruct (geomEq_lookup_Some _ _ k l Hg Hl) as (l' & Hl' & Hgl).
      destruct (Hlk k l Hl) as (ns & nt & Hns & Hnt & ->).
      destruct (Hlk' k l' Hl') as (ns' & nt' & Hns' & Hnt' & ->).
      f_equal. pose proof (geom_fields _ _ Hgl) as (Hs & Ht & Hv & Hrv & Hty & Hw').
      rewrite <- Hn, <- Hs in Hns'. rewrite <- Hn, <- Ht in Hnt'.
      assert (ns' = ns) by congruence. assert (nt' = nt) by congruence. subst.
      unfold routedLink, sourceBucket, targetBucket.
      rewrite <- (sourceSideOf_geom offs _ _ Hgl), <- (targetSideOf_geom offs _ _ Hgl).
      rewrite <- Hs, <- Ht, <- Hv, <- Hrv, <- Hty, <- Hw'.
      rewrite <- !(endCoords_geomEq offs _ _ _ _ _ _ _ _ Hg Hgl). reflexivity.
    - apply lookup_ge_None in Hl.
      assert (H1 : rl !! k = None) by (apply lookup_ge_None; lia).
      assert (H2 : rl' !! k = None).
      { apply lookup_ge_None. rewrite Hlen', <- (geomEq_length _ _ Hg). lia. }
      now rewrite H1, H2. }
  intros Hn Hg.
  destruct (route offs g1) as [r|] eqn:E1.
  - symmetry. now apply (Hone g1 g2).
  - destruct (route offs g2) as [r|] eqn:E2; [|reflexivity].
    rewrite (Hone g2 g1 r (eq_sym Hn) (geomEq_sym _ _ Hg) E2) in E1. discriminate.
Qed.

Lemma occupiedStart_edgePoint node b s lw :
  exists a, occupiedStart node (edgePoint node b (s + lw / 2)) lw = Some a /\ a == s.
Proof.
  unfold occupiedStart, edgePoint.
  destruct (snd b); simpl; eexists; (split; [reflexivity|]); field.
Qed.

(** In a routed graph, the end that bucket [b] of node [i] attaches
    starts at the clamped position of the closed form. *)
Lemma routed_start g g' i node b k l :
  route offs g = Some g' ->
  nodes g' !! i = Some node ->
  k ∈ bucketOf offs (links g') i b ->
  links g' !! k = Some l ->
  exists a, routedStart node b l = Some a /\
            a == edgeStart offs (links g') node i b k l.
Proof.
  intros Hr Hn Hk Hl.
  pose proof (route_geomEq g g' Hr) as Hg.
  pose proof (route_spec offs g g' Hr) as (_ & Hnodes & _ & Hlk).
  destruct (geomEq_lookup_Some _ _ k l Hg Hl) as (l0 & Hl0 & Hgl).
  destruct (Hlk k l0 Hl0) as (ns & nt & Hns & Hnt & Hl').
  rewrite Hl in Hl'. injection Hl' as ->.
  apply elem_of_bucketOf in Hk. rewrite (member_lookup offs i b _ k _ Hl) in Hk.
  rewrite (memberLink_geom offs i b _ l0 Hgl) in Hk.
  rewrite Hnodes in Hn.
  assert (Hc : coordsOf b (routedLink offs (links g) ns nt k l0) =
               Some (endCoords offs (links g) node i b k l0)).
  { destruct b as [[] s]; unfold coordsOf, routedLink; simpl.
    - apply memberLink_source in Hk as [Hi Hs]. unfold sourceBucket.
      rewrite Hs, Hi in *. congruence.
    - apply memberLink_target in Hk as [Hi Hs]. unfold targetBucket.
      rewrite Hs, Hi in *. congruence. }
  unfold routedStart. rewrite Hc.
  rewrite (edgeStart_geomEq offs _ (links g) node i b k _ l0 Hg Hgl).
  rewrite (linkWidth_geom _ l0 Hgl).
  apply occupiedStart_edgePoint.
Qed.

(** The clamped position of the closed form, with the sums written
    out: every link of the bucket is counted. *)
Lemma edgeStart_laid L node i b k l :
  edgeStart offs L node i b k l ==
  laidStart offs L node b (sortedBucket offs L i b) k l.
Proof.
  unfold edgeStart, laidStart, posOnEdgeOf, startCursor.
  destruct (manualPosOf offs b l); [reflexivity|].
  apply clamp_compat. rewrite cursorAt_sum.
  rewrite (totalWidth_sum L). reflexivity.
Qed.

End RoutedGraph.

(** * Routing: the claims *)

Section RoutingClaims.

Import Diagram Routing.

(** C8.  Routing is deterministic in the geometry: two graphs with
    the same nodes and the same links up to the attachment records
    the links already hold, routed with the same link-offset table,
    give the same result, hence the same endpoint coordinates and
    sides for every link (and throw together if one throws). *)
Theorem C8_routing_deterministic (offs : LinkOffsets) (g1 g2 : Graph) :
  nodes g1 = nodes g2 ->
  geom <$> links g1 = geom <$> links g2 ->
  routedGraph (Some g1) offs = routedGraph (Some g2) offs.
Proof.
  intros Hn Hg. unfold routedGraph.
  now rewrite (route_geom offs g1 g2 Hn Hg).
Qed.

Lemma C8_witness :
  nodes crowded = nodes crowdedStale /\
  geom <$> links crowded = geom <$> links crowdedStale /\
  routedGraph (Some crowded) ∅ = routedGraph (Some crowdedStale) ∅.
Proof.
  split; [reflexivity|]. split; [reflexivity|].
  apply (C8_routing_deterministic ∅ crowded crowdedStale); reflexivity.
Defined.

Lemma half a : a / 2 == a * (1#2).
Proof. reflexivity. Qed.

Lemma disjoint_apart a w a' w' s s' :
  a == s -> a' == s' -> s + w <= s' \/ s' + w' <= s -> disjoint a w a' w'.
Proof.
  intros Ha Ha' H p [[H1 H2] [H3 H4]]. rewrite Ha in *. rewrite Ha' in *.
  destruct H; lra.
Qed.

(** C2, as stated, fails: two links of width 8 routed on an edge of
    length 10 start at 0 and at 2 and share the point 5. *)
Lemma C2_overlap_refuted :
  exists g', route ∅ crowded = Some g' /\ ~ noOverlap ∅ g' (fun _ _ _ => True).
Proof.
  eexists. split; [vm_compute; reflexivity|].
  intros H.
  edestruct (H 0%nat (plainNode "a" 0 0 10 0 10) (Outgoing, Right) 0%nat 1%nat)
    as (a1 & a2 & H1 & H2 & Hd);
    [reflexivity|exact I|discriminate
     |apply elem_of_bucketOf; reflexivity|apply elem_of_bucketOf; reflexivity
     |reflexivity|reflexivity|reflexivity|reflexivity|].
  vm_compute in H1. vm_compute in H2.
  injection H1 as <-. injection H2 as <-.
  apply (Hd 5). vm_compute. intuition discriminate.
Qed.

(** C2 (amended).  In a routed graph, in every bucket whose link
    widths are not negative and sum to no more than the length of the
    edge, any two links without a saved manual offset for that end
    occupy disjoint intervals along the edge. *)
Theorem C2_fitting_bucket_no_overlap (offs : LinkOffsets) (g g' : Graph) :
  route offs g = Some g' -> noOverlap offs g' (bucketFits offs g').
Proof.
  intros Hr i node b k1 k2 l1 l2 Hn [Hw Hfit] Hne Hk1 Hk2 Hl1 Hl2 Hm1 Hm2.
  destruct (routed_start offs g g' i node b k1 l1 Hr Hn Hk1 Hl1) as (a1 & Ha1 & E1).
  destruct (routed_start offs g g' i node b k2 l2 Hr Hn Hk2 Hl2) as (a2 & Ha2 & E2).
  exists a1, a2. split; [exact Ha1|]. split; [exact Ha2|].
  rewrite edgeStart_laid in E1, E2. unfold laidStart in E1, E2.
  rewrite Hm1 in E1. rewrite Hm2 in E2.
  set (L := links g') in *. set (ks := sortedBucket offs L i b) in *.
  set (E := edgeLengthOf node b) in *.
  assert (Hperm : ks ≡ₚ bucketOf offs L i b) by apply sort_perm.
  assert (Hwk : forall j, j ∈ ks -> 0 <= widthAt L j).
  { intros j Hj. apply Hw. now rewrite <- Hperm. }
  assert (HS : sumWidths L ks <= E).
  { rewrite (sumWidths_perm L _ _ Hperm). exact Hfit. }
  assert (Hc0 : Qmax 0 ((E - sumWidths L ks) / 2) == (E - sumWidths L ks) / 2).
  { apply Q.max_r. rewrite half. lra. }
  assert (Hin : forall k l, k ∈ ks -> L !! k = Some l ->
            clamp (Qmax 0 ((E - sumWidths L ks) / 2) + sumWidths L (prefixBefore ks k))
                  E (linkWidth l)
            == (E - sumWidths L ks) / 2 + sumWidths L (prefixBefore ks k)).
  { intros k l Hk Hl.
    pose proof (prefixBefore_nonneg L ks k Hwk) as Hp.
    pose proof (prefixBefore_fits L ks k Hwk Hk) as Hq.
    rewrite (widthAt_lookup L k l Hl) in Hq.
    rewrite clamp_inside; rewrite Hc0; rewrite half; lra. }
  assert (Hk1' : k1 ∈ ks) by now rewrite Hperm.
  assert (Hk2' : k2 ∈ ks) by now rewrite Hperm.
  rewrite (Hin k1 l1 Hk1' Hl1) in E1. rewrite (Hin k2 l2 Hk2' Hl2) in E2.
  apply (disjoint_apart _ _ _ _ _ _ E1 E2).
  destruct (prefixBefore_apart L ks k1 k2 Hwk Hk1' Hk2' Hne) as [H|H];
    rewrite (widthAt_lookup L _ _ Hl1) in H || rewrite (widthAt_lookup L _ _ Hl2) in H;
    [left|right]; lra.
Qed.

Lemma C2_witness :
  exists g', route ∅ mixed = Some g' /\ noOverlap ∅ g' (bucketFits ∅ g').
Proof.
  eexists. split; [vm_compute; reflexivity|].
  eapply (C2_fitting_bucket_no_overlap ∅ mixed). vm_compute. reflexivity.
Defined.

(** C4, as stated, fails: with a saved offset on the first of two
    links of width 10 on an edge of length 100, the second link starts
    at 50, not at the 45 it would have if the first were not counted. *)
Lemma C4_manual_excluded_refuted :
  exists g', route mixedOffsets mixed = Some g' /\
             ~ placementLaw mixedOffsets g' (autoOnly mixedOffsets).
Proof.
  eexists. split; [vm_compute; reflexivity|].
  intros H.
  edestruct (H 0%nat (plainNode "a" 0 0 10 0 100) (Outgoing, Right) 1%nat)
    as (a & Ha & E); [reflexivity|apply elem_of_bucketOf; reflexivity|reflexivity|].
  vm_compute in Ha. injection Ha as <-.
  vm_compute in E. discriminate E.
Qed.

(** C4 (amended).  In a routed graph, a link end with a saved manual
    offset starts at the offset minus half the link width, clamped by
    [max(0, min(., edgeLength - width))]; a link end without one starts
    at the clamped default cursor, which begins at
    [max(0, (edgeLength - total) / 2)] and has advanced by the width of
    every link sorted before it.  The total and the advance count all
    links of the bucket, those with a saved offset included. *)
Theorem C4_manual_and_default_placement (offs : LinkOffsets) (g g' : Graph) :
  route offs g = Some g' -> placementLaw offs g' (fun _ _ ks => ks).
Proof.
  intros Hr i node b k l Hn Hk Hl.
  destruct (routed_start offs g g' i node b k l Hr Hn Hk Hl) as (a & Ha & E).
  exists a. split; [exact Ha|]. now rewrite <- edgeStart_laid.
Qed.

Lemma C4_witness :
  exists g', route mixedOffsets mixed = Some g' /\
             placementLaw mixedOffsets g' (fun _ _ ks => ks).
Proof.
  eexists. split; [vm_compute; reflexivity|].
  eapply (C4_manual_and_default_placement mixedOffsets mixed). vm_compute. reflexivity.
Defined.

End RoutingClaims.

(** * The initial layout effect and the save handler *)

Section LayoutFacts.

Import Diagram Reference.

Lemma nodes_forEachNode f g : nodes (forEachNode f g) = map f (nodes g).
Proof. reflexivity. Qed.

Lemma applySaved_absent (savedNodes : gmap string SavedNodeLayout.t) n :
  savedNodes !! id n = None -> applySaved savedNodes n = n.
Proof. intros H. unfold applySaved. now rewrite H. Qed.

Lemma applySaved_present (savedNodes : gmap string SavedNodeLayout.t) n s :
  savedNodes !! id n = Some s ->
  rectangle (applySaved savedNodes n) =
    (SavedNodeLayout.x0 s, SavedNodeLayout.x1 s, SavedNodeLayout.y0 s,
     SavedNodeLayout.y1 s, SavedNodeLayout.isRotated s).
Proof. intros H. unfold applySaved. rewrite H. reflexivity. Qed.

(** What [handleSaveClick] has stored for a node id: the entry of the
    last node of the list with that id, or what was there before. *)
Lemma foldl_saveNode_other (ns : list SankeyNode) : forall m i,
  i ∉ id <$> ns -> foldl saveNode m ns !! i = m !! i.
Proof.
  induction ns as [|n ns IH]; intros m i Hi; simpl; [reflexivity|].
  rewrite fmap_cons in Hi. apply not_elem_of_cons in Hi as [Hne Hi].
  rewrite (IH _ _ Hi). unfold saveNode. now rewrite lookup_insert_ne.
Qed.

Lemma foldl_saveNode_lookup (ns : list SankeyNode) : forall m n,
  NoDup (id <$> ns) -> n ∈ ns ->
  foldl saveNode m ns !! id n =
    Some (SavedNodeLayout.mk (x0 n) (x1 n) (y0 n) (y1 n) (default false (isRotated n))).
Proof.
  induction ns as [|n0 ns IH]; intros m n Hnd Hn; simpl.
  - now apply elem_of_nil in Hn.
  - rewrite fmap_cons in Hnd. apply NoDup_cons in Hnd as [Hn0 Hnd].
    apply elem_of_cons in Hn as [->|Hn].
    + rewrite (foldl_saveNode_other ns _ _ Hn0). unfold saveNode.
      now rewrite lookup_insert_eq.
    + now apply IH.
Qed.

Lemma defaultLayout_id width height n : id (defaultLayout width height n) = id n.
Proof.
  unfold defaultLayout, place.
  repeat match goal with
         | |- context [String.eqb ?a ?b] => destruct (String.eqb a b)
         end; reflexivity.
Qed.

End LayoutFacts.

Section LayoutClaims.

Import Diagram Reference.

Lemma defaultLayout_atReference width height n :
  atReference width height n (defaultLayout width height n).
Proof.
  unfold atReference. split; [apply defaultLayout_id|].
  split; [|split; [|split]].
  - intros Hid. unfold defaultLayout. rewrite Hid. simpl.
    repeat split; try reflexivity; ring.
  - intros Hid. unfold defaultLayout. rewrite Hid. simpl.
    repeat split; try reflexivity; ring.
  - intros Hid. unfold defaultLayout. rewrite Hid. simpl.
    repeat split; try reflexivity; ring.
  - intros left dy Hin. unfold processChain in Hin.
    repeat (apply elem_of_cons in Hin as [Hin|Hin];
            [injection Hin as Hid -> ->; unfold defaultLayout; rewrite Hid; simpl;
             repeat split; try reflexivity; field|]).
    now apply elem_of_nil in Hin.
Qed.

(** C3, as stated, fails: with a saved layout that has no entry for
    the ore node, the node stays where the generic layout put it
    (left edge 1), not at its reference place (left edge 50). *)
Lemma C3_per_node_default_refuted :
  ~ defaultsPerNode 1100 700 (Some emptySaved) oreOnly.
Proof.
  intros H.
  destruct (H 0%nat _ eq_refl eq_refl) as (n' & Hn' & _ & _ & _ & _ & Hchain).
  vm_compute in Hn'. injection Hn' as <-.
  destruct (Hchain 50 0) as [Hx _]; [apply list_elem_of_here|].
  vm_compute in Hx. discriminate Hx.
Qed.

(** C3 (amended).  When no saved layout exists at all, every node the
    generic layout returns is moved to its place in the reference
    figure.  When a saved layout exists, a node it has no entry for
    keeps the geometry of the generic layout. *)
Theorem C3_default_only_without_saved_layout (width height : Q)
    (generated : Graph) (j : nat) (n : SankeyNode) :
  nodes generated !! j = Some n ->
  (exists n', nodes (layoutNodes width height None generated) !! j = Some n' /\
              atReference width height n n') /\
  (forall sl, SavedLayoutMap.nodes sl !! id n = None ->
     nodes (layoutNodes width height (Some sl) generated) !! j = Some n).
Proof.
  intros Hn. split.
  - exists (defaultLayout width height n). split.
    + unfold layoutNodes. rewrite nodes_forEachNode.
      change (map ?f ?l) with (f <$> l). rewrite list_lookup_fmap, Hn. reflexivity.
    + apply defaultLayout_atReference.
  - intros sl Hsl. unfold layoutNodes. rewrite nodes_forEachNode.
    change (map ?f ?l) with (f <$> l). rewrite list_lookup_fmap, Hn. simpl.
    now rewrite applySaved_absent.
Qed.

Lemma C3_witness :
  (exists n', nodes (layoutNodes 1100 700 None oreOnly) !! 0%nat = Some n' /\
              atReference 1100 700 (mkNode "ore" "Ore" process 0 1 26 40 660 None) n') /\
  (forall sl, SavedLayoutMap.nodes sl !! "ore" = None ->
     nodes (layoutNodes 1100 700 (Some sl) oreOnly) !! 0%nat =
     Some (mkNode "ore" "Ore" process 0 1 26 40 660 None)).
Proof.
  apply (C3_default_only_without_saved_layout 1100 700 oreOnly 0%nat). reflexivity.
Defined.

(** C6.  Saving the layout of a graph whose node ids are distinct and
    applying the saved layout to that same graph gives back, for every
    node, the same rectangle and the same rotation flag; the saved
    link table is the link-offset table at the time of saving. *)
Theorem C6_save_apply_roundtrip (width height : Q) (g : Graph)
    (linkOffsets : LinkOffsets) :
  NoDup (id <$> nodes g) ->
  exists sl, handleSaveClick (Some g) linkOffsets = Some sl /\
    SavedLayoutMap.links sl = linkOffsets /\
    rectangle <$> nodes (layoutNodes width height (Some sl) g) = rectangle <$> nodes g.
Proof.
  intros Hnd. eexists. split; [reflexivity|]. split; [reflexivity|].
  unfold layoutNodes. rewrite nodes_forEachNode. simpl.
  change (map ?f ?l) with (f <$> l). rewrite <- list_fmap_compose.
  apply list_fmap_ext. intros k n Hn. simpl.
  rewrite (applySaved_present _ n _
             (foldl_saveNode_lookup (nodes g) ∅ n Hnd (list_elem_of_lookup_2 _ _ _ Hn))).
  reflexivity.
Qed.

Lemma C6_witness :
  NoDup (id <$> nodes twoNodes) /\
  exists sl, handleSaveClick (Some twoNodes) Routing.mixedOffsets = Some sl /\
    SavedLayoutMap.links sl = Routing.mixedOffsets /\
    rectangle <$> nodes (layoutNodes 1100 700 (Some sl) twoNodes)
    = rectangle <$> nodes twoNodes.
Proof.
  assert (H : NoDup (id <$> nodes twoNodes)).
  { apply NoDup_cons. split.
    - intros Hin. apply list_elem_of_singleton in Hin. discriminate Hin.
    - apply NoDup_singleton. }
  split; [exact H|].
  exact (C6_save_apply_roundtrip 1100 700 twoNodes Routing.mixedOffsets H).
Defined.

(** C7.  When the generic layout raises on a data set that has nodes,
    the effect writes "Layout Error" and the exception to the console
    and leaves the [graph] state as it was, so a graph computed before
    stays in place. *)
Theorem C7_layout_failure_keeps_graph
    (sankeyGenerator : GeneratorConfig -> processData.GraphData -> Generated)
    (width height : Q) (data : processData.GraphData)
    (settings : VisualizationSettings) (savedLayout : option SavedLayoutMap.t)
    (st : State) (e : string) :
  processData.nodes data <> [] ->
  sankeyGenerator (generatorConfig width height settings) data = Raises e ->
  let st' := initialLayout sankeyGenerator width height data settings savedLayout st in
  graph st' = graph st /\ console st' = console st ++ ["Layout Error"; e].
Proof.
  intros Hne Hraise. unfold initialLayout.
  destruct (processData.nodes data); [contradiction|].
  rewrite Hraise. split; reflexivity.
Qed.

Lemma C7_witness :
  let data := processData.processYearData processData.row_2020 in
  let st := mkState (Some twoNodes) [] in
  let st' := initialLayout failingGenerator 1100 700 data defaultSettings None st in
  graph st' = Some twoNodes /\ console st' = ["Layout Error"; "circular link"].
Proof.
  apply (C7_layout_failure_keeps_graph failingGenerator 1100 700
           (processData.processYearData processData.row_2020) defaultSettings None
           (mkState (Some twoNodes) []) "circular link").
  - discriminate.
  - reflexivity.
Defined.

End LayoutClaims.

(** * More on the graph builder *)

Section BuilderMore.

Import processData Columns.

Ltac in_columns :=
  unfold columns; repeat (first [apply list_elem_of_here|apply list_elem_of_further]).

Ltac which_call H :=
  apply elem_of_links in H; destruct H as [c [Hc Hem]];
  unfold calls, mkCall in Hc;
  repeat (apply elem_of_cons in Hc; destruct Hc as [->|Hc]);
  [..|now apply elem_of_nil in Hc];
  destruct Hem as [Hvis ->].

Lemma or_num_reading a d : JS.or_num a d = JS.or_num (reading a) d.
Proof.
  unfold reading, JS.or, JS.truthy, JS.or_num.
  destruct a as [q|]; [|reflexivity].
  destruct (Qeq_bool q 0) eqn:E; simpl; [reflexivity|]. now rewrite E.
Qed.

Lemma eol_reading a b :
  JS.or_num (JS.or a b) 0 = JS.or_num (JS.or (reading a) (reading b)) 0.
Proof.
  unfold reading, JS.or, JS.truthy, JS.or_num.
  destruct a as [q|], b as [r|]; simpl;
    try destruct (Qeq_bool q 0) eqn:Eq; try destruct (Qeq_bool r 0) eqn:Er;
    repeat (simpl; rewrite ?Eq, ?Er); reflexivity.
Qed.

Lemma sameReading_same_graph (row1 row2 : NdDataRow) :
  sameReading row1 row2 -> processYearData row1 = processYearData row2.
Proof.
  intros H.
  assert (Hnum : forall k, k ∈ columns ->
            JS.or_num (row1 !! k) 0 = JS.or_num (row2 !! k) 0).
  { intros k Hk. rewrite (or_num_reading (row1 !! k)), (or_num_reading (row2 !! k)).
    now rewrite (H k Hk). }
  assert (Heol : eolToLoss row1 = eolToLoss row2).
  { unfold eolToLoss. rewrite (eol_reading (row1 !! _)), (eol_reading (row2 !! _)).
    rewrite (H "end of life"), (H "end of life to loss") by in_columns. reflexivity. }
  unfold processYearData, otherSemiFlow. cbv zeta. rewrite Heol.
  repeat match goal with
         | |- context [JS.or_num (row1 !! ?k) 0] => rewrite (Hnum k) by in_columns
         end.
  reflexivity.
Qed.

(** X1.  The graph depends on the row only through the columns the
    builder reads, and on each of them only up to reading a zero as an
    absent cell. *)
Theorem builder_reads_columns_only (row1 row2 : NdDataRow) :
  sameReading row1 row2 -> processYearData row1 = processYearData row2.
Proof. apply sameReading_same_graph. Qed.

Lemma builder_reads_columns_only_witness :
  sameReading row_2020 row_2020_padded /\
  processYearData row_2020 = processYearData row_2020_padded.
Proof.
  assert (H : sameReading row_2020 row_2020_padded).
  { intros k Hk. unfold columns in Hk.
    repeat (apply elem_of_cons in Hk as [->|Hk]; [vm_compute; reflexivity|]).
    now apply elem_of_nil in Hk. }
  split; [exact H|]. exact (builder_reads_columns_only row_2020 row_2020_padded H).
Defined.

(** X2.  A row whose read columns are all absent or zero gives exactly
    the three force-visible links, each with value 0.25 and realValue
    0. *)
Theorem builder_zero_row (row : NdDataRow) :
  (forall k v, k ∈ columns -> row !! k = Some v -> v == 0) ->
  links (processYearData row) = floorLinks.
Proof.
  intros H.
  rewrite (sameReading_same_graph row ∅); [vm_compute; reflexivity|].
  intros k Hk. rewrite lookup_empty. unfold reading, JS.or, JS.truthy.
  destruct (row !! k) as [v|] eqn:E; [|reflexivity].
  apply (H k v Hk) in E. apply Qeq_bool_iff in E. now rewrite E.
Qed.

Lemma builder_zero_row_witness :
  (forall k v, k ∈ columns -> row_zeros !! k = Some v -> v == 0) /\
  links (processYearData row_zeros) = floorLinks.
Proof.
  assert (H : forall k v, k ∈ columns -> row_zeros !! k = Some v -> v == 0).
  { intros k v Hk. unfold columns in Hk.
    repeat (apply elem_of_cons in Hk as [->|Hk];
            [vm_compute; intros E; first [discriminate E|now injection E as <-]|]).
    now apply elem_of_nil in Hk. }
  split; [exact H|]. exact (builder_zero_row row_zeros H).
Defined.

Lemma shownValue_cases f v :
  (shownValue f v = Qabs v /\ (f = true -> 1#4 <= Qabs v)) \/
  (f = true /\ shownValue f v = 1#4 /\ Qabs v < 1#4).
Proof.
  unfold shownValue. destruct f; simpl.
  - destruct (JS.lt (Qabs v) (1#4)) eqn:E.
    + right. apply lt_spec in E. auto.
    + left. apply lt_false in E. auto.
  - left. split; [reflexivity|discriminate].
Qed.

(** X3.  Every link the builder emits joins two different nodes of the
    ten, has a real magnitude that is not negative and a value above
    the 0.001 threshold; its value is its real magnitude, except for a
    force-visible link of magnitude below 0.25, whose value is 0.25. *)
Theorem builder_link_invariants (row : NdDataRow) (l : SankeyLink) :
  l ∈ links (processYearData row) ->
  (source l < length (nodes (processYearData row)))%nat /\
  (target l < length (nodes (processYearData row)))%nat /\
  source l <> target l /\
  0 <= realValue l /\ 1#1000 < value l /\
  (value l = realValue l \/
   (value l = 1#4 /\ realValue l < 1#4 /\
    forceVisibleMagnitude row (source l) (target l) = Some (realValue l))).
Proof.
  intros H. change (length (nodes (processYearData row))) with 10%nat.
  which_call H; cbn [source target value realValue];
    (split; [lia|]); (split; [lia|]); (split; [lia|]);
    (split; [apply Qabs_nonneg|]); (split; [exact Hvis|]);
    match goal with
    | |- shownValue ?f ?v = _ \/ _ =>
        destruct (shownValue_cases f v) as [[E _]|(Ef & E & Hlt)];
        [left; exact E|right; rewrite E; try discriminate Ef; auto]
    end.
Qed.

Lemma row_2020_first_link :
  links (processYearData row_2020) = mkLink 0 1 100 100 domestic :: floorLinks.
Proof. vm_compute. reflexivity. Qed.

Lemma builder_link_invariants_witness :
  let l := mkLink 0 1 100 100 domestic in
  l ∈ links (processYearData row_2020) /\
  (source l < 10)%nat /\ (target l < 10)%nat /\ source l <> target l /\
  0 <= realValue l /\ 1#1000 < value l /\
  (value l = realValue l \/
   (value l = 1#4 /\ realValue l < 1#4 /\
    forceVisibleMagnitude row_2020 (source l) (target l) = Some (realValue l))).
Proof.
  assert (H : mkLink 0 1 100 100 domestic ∈ links (processYearData row_2020)).
  { rewrite row_2020_first_link. apply list_elem_of_here. }
  split; [exact H|].
  exact (builder_link_invariants row_2020 (mkLink 0 1 100 100 domestic) H).
Defined.

End BuilderMore.

Section BuilderShape.

Import processData Columns.

(** What one call of [addLink] appends. *)
Definition emit (c : nat * nat * Q * LinkType * bool) : list SankeyLink :=
  let '(s, t, v, ty, f) := c in
  if JS.gt (shownValue f v) (1#1000)
  then [mkLink s t (shownValue f v) (Qabs v) ty]
  else [].

Definition callEndpoints (c : nat * nat * Q * LinkType * bool) : nat * nat :=
  let '(s, t, _, _, _) := c in (s, t).

Lemma call_emit ls c : call ls c = ls ++ emit c.
Proof.
  destruct c as [[[[s t] v] ty] f]. unfold call, addLink, emit.
  fold (shownValue f v).
  destruct (JS.gt (shownValue f v) (1#1000)); [reflexivity|].
  now rewrite app_nil_r.
Qed.

Lemma foldl_call_emit cs : forall ls, foldl call ls cs = ls ++ flat_map emit cs.
Proof.
  induction cs as [|c cs IH]; intros ls; cbn [foldl flat_map].
  - now rewrite app_nil_r.
  - now rewrite IH, call_emit, <- app_assoc.
Qed.

Lemma emit_endpoints cs :
  endpoints <$> flat_map emit cs `sublist_of` callEndpoints <$> cs.
Proof.
  induction cs as [|c cs IH]; cbn [flat_map]; [constructor|].
  rewrite fmap_app, fmap_cons.
  destruct c as [[[[s t] v] ty] f]. unfold emit at 1.
  destruct (JS.gt (shownValue f v) (1#1000)).
  - now constructor.
  - now constructor.
Qed.

Lemma call_endpoints row :
  callEndpoints <$> calls row =
  [ (0, 1); (1, 8); (1, 7); (1, 2); (2, 8); (2, 7); (2, 3); (2, 4); (3, 8);
    (3, 7); (4, 8); (3, 5); (3, 6); (4, 6); (5, 8); (6, 8); (5, 9); (6, 9);
    (9, 7) ]%nat.
Proof. reflexivity. Qed.

(** X4.  The builder never emits two links between the same ordered
    pair of nodes, and never more than nineteen links. *)
Theorem builder_no_parallel_links (row : NdDataRow) :
  NoDup (endpoints <$> links (processYearData row)) /\
  (length (links (processYearData row)) <= 19)%nat.
Proof.
  rewrite processYearData_calls, foldl_call_emit. rewrite app_nil_l.
  pose proof (emit_endpoints (calls row)) as Hsub.
  split.
  - eapply sublist_NoDup; [|exact Hsub]. rewrite call_endpoints.
    apply (@bool_decide_unpack _ (NoDup_dec _)). vm_compute. exact I.
  - apply sublist_length in Hsub. rewrite !length_fmap in Hsub.
    exact Hsub.
Qed.

(** X5.  The concentrate to export link carries the magnitude of the
    sum of the 'trade-concentrate' and 'export-concentrate' columns: the
    sign is dropped after the two are added, so opposite cells cancel
    and no link is emitted. *)
Theorem builder_alias_columns_add_signed (row : NdDataRow) :
  (forall l, l ∈ links (processYearData row) ->
     source l = 1%nat -> target l = 8%nat ->
     realValue l = Qabs (JS.or_num (row !! "trade-concentrate") 0
                         + JS.or_num (row !! "export-concentrate") 0)
     /\ value l = realValue l /\ type l = trade) /\
  (forall v, row !! "trade-concentrate" = Some v ->
     row !! "export-concentrate" = Some (- v) ->
     forall l, l ∈ links (processYearData row) ->
       ~ (source l = 1%nat /\ target l = 8%nat)).
Proof.
  assert (H18 : forall l, l ∈ links (processYearData row) ->
            source l = 1%nat -> target l = 8%nat ->
            1#1000 < realValue l /\
            realValue l = Qabs (JS.or_num (row !! "trade-concentrate") 0
                                + JS.or_num (row !! "export-concentrate") 0)
            /\ value l = realValue l /\ type l = trade).
  { intros l H Hs Ht.
    apply elem_of_links in H; destruct H as [c [Hc Hem]];
      unfold calls, mkCall in Hc;
      repeat (apply elem_of_cons in Hc; destruct Hc as [->|Hc]);
      [..|now apply elem_of_nil in Hc];
      destruct Hem as [Hvis ->]; cbn [source target] in Hs, Ht; try discriminate.
    cbn [realValue value type]. auto. }
  split.
  - intros l H Hs Ht. destruct (H18 l H Hs Ht) as (_ & H1 & H2 & H3). auto.
  - intros v Hv Hv' l H [Hs Ht].
    destruct (H18 l H Hs Ht) as (Hvis & E & _). rewrite E, Hv, Hv' in Hvis.
    assert (Hz : JS.or_num (Some v) 0 + JS.or_num (Some (- v)) 0 == 0).
    { unfold JS.or_num.
      destruct (Qeq_bool v 0) eqn:Ev.
      - apply Qeq_bool_iff in Ev.
        assert (E' : Qeq_bool (- v) 0 = true) by (apply Qeq_bool_iff; lra).
        rewrite E'. lra.
      - assert (E' : Qeq_bool (- v) 0 = false).
        { destruct (Qeq_bool (- v) 0) eqn:E'; [|reflexivity].
          apply Qeq_bool_iff in E'.
          assert (Ev' : Qeq_bool v 0 = true) by (apply Qeq_bool_iff; lra).
          congruence. }
        rewrite E'. lra. }
    rewrite (Qabs_wd _ _ Hz) in Hvis. vm_compute in Hvis. discriminate Hvis.
Qed.

End BuilderShape.

(** * More on the routing *)

Section RouteMore.

Import Diagram Routing.

Variable offs : LinkOffsets.

Lemma edgePoint_full node b mid :
  exists px py s, edgePoint node b mid = mkCoords (Some px) (Some py) s.
Proof. destruct b as [d []]; unfold edgePoint; simpl; eauto. Qed.

(** X6.  Routing moves nothing and changes no flow: the routed graph
    has the same nodes and, position by position, links with the same
    endpoints, value, real value, type and width; and every link has a
    complete attachment record (point and side) at both ends. *)
Theorem route_keeps_flows (g g' : Graph) :
  route offs g = Some g' ->
  nodes g' = nodes g /\
  Forall2 (fun l' l =>
             geom l' = geom l /\
             (exists px py s, sourceCoords l' = Some (mkCoords (Some px) (Some py) s)) /\
             (exists px py s, targetCoords l' = Some (mkCoords (Some px) (Some py) s)))
          (links g') (links g).
Proof.
  intros Hr. pose proof (route_spec offs g g' Hr) as (_ & Hn & Hlen & Hlk).
  split; [exact Hn|].
  apply Forall2_same_length_lookup. split; [exact Hlen|].
  intros k l' l Hl' Hl.
  destruct (Hlk k l Hl) as (ns & nt & _ & _ & E). rewrite Hl' in E. injection E as ->.
  split; [apply geom_routedLink|].
  unfold routedLink, endCoords. cbn [sourceCoords targetCoords].
  split.
  - destruct (edgePoint_full ns (sourceBucket offs l)
                (edgeStart offs (links g) ns (index (source l))
                           (sourceBucket offs l) k l + linkWidth l / 2))
      as (px & py & s & ->). eauto.
  - destruct (edgePoint_full nt (targetBucket offs l)
                (edgeStart offs (links g) nt (index (target l))
                           (targetBucket offs l) k l + linkWidth l / 2))
      as (px & py & s & ->). eauto.
Qed.


(** X7.  Routing the routed graph again, with the same offsets, gives
    the routed graph itself. *)
Theorem route_idempotent (g g' : Graph) :
  route offs g = Some g' -> route offs g' = Some g'.
Proof.
  intros Hr. rewrite <- Hr. apply route_geom.
  - now apply route_spec in Hr as (_ & Hn & _).
  - exact (route_geomEq offs g g' Hr).
Qed.


(** X8.  The routing throws exactly when some link has an endpoint
    whose [index] is not a position of [graph.nodes]. *)
Theorem route_throws_iff_dangling (g : Graph) :
  route offs g = None <-> ~ wellLinked g.
Proof.
  split.
  - intros Hr Hw. destruct (route_wellLinked offs g Hw) as [g' E]. congruence.
  - intros Hw. destruct (route offs g) as [g'|] eqn:E; [|reflexivity].
    exfalso. apply Hw. now apply route_spec in E as (Hwl & _).
Qed.

Lemma clamp_range p E lw :
  lw <= E -> 0 <= clamp p E lw /\ clamp p E lw + lw <= E.
Proof.
  intros H. unfold clamp. split; [apply Q.le_max_l|].
  assert (Qmax 0 (Qmin p (E - lw)) <= E - lw); [|lra].
  apply Q.max_lub; [lra|apply Q.le_min_r].
Qed.

Lemma clamp_overhang p E lw : E < lw -> clamp p E lw == 0.
Proof.
  intros H. unfold clamp. apply Q.max_l.
  apply Qle_trans with (E - lw); [apply Q.le_min_r|lra].
Qed.

(** X9.  In a routed graph, a link end whose width is no more than the
    length of the edge it attaches to lies wholly on that edge, with or
    without a saved offset; a link wider than the edge starts at the
    start of the edge and overhangs it. *)
Theorem routed_end_stays_on_edge (g g' : Graph) (i : nat) (node : SankeyNode)
    (b : BucketName) (k : nat) (l : SankeyLink) :
  route offs g = Some g' ->
  nodes g' !! i = Some node ->
  k ∈ bucketOf offs (links g') i b ->
  links g' !! k = Some l ->
  exists a, routedStart node b l = Some a /\
    (linkWidth l <= edgeLengthOf node b ->
       0 <= a /\ a + linkWidth l <= edgeLengthOf node b) /\
    (edgeLengthOf node b < linkWidth l -> a == 0).
Proof.
  intros Hr Hn Hk Hl.
  destruct (routed_start offs g g' i node b k l Hr Hn Hk Hl) as (a & Ha & E).
  exists a. split; [exact Ha|].
  unfold edgeStart, posOnEdgeOf in E.
  match type of E with
  | a == Qmax 0 (Qmin ?p (?e - ?w)) => change (a == clamp p e w) in E
  end.
  split.
  - intros Hw. rewrite E. now apply clamp_range.
  - intros Hw. rewrite E. now apply clamp_overhang.
Qed.

End RouteMore.

Section RouteMoreWitnesses.

Import Diagram Routing.

Lemma route_keeps_flows_witness :
  exists g', route mixedOffsets mixed = Some g' /\
    nodes g' = nodes mixed /\
    Forall2 (fun l' l =>
               geom l' = geom l /\
               (exists px py s, sourceCoords l' = Some (mkCoords (Some px) (Some py) s)) /\
               (exists px py s, targetCoords l' = Some (mkCoords (Some px) (Some py) s)))
            (links g') (links mixed).
Proof.
  eexists. split; [vm_compute; reflexivity|].
  eapply (route_keeps_flows mixedOffsets mixed). vm_compute. reflexivity.
Defined.

Lemma route_idempotent_witness :
  exists g', route mixedOffsets mixed = Some g' /\ route mixedOffsets g' = Some g'.
Proof.
  eexists. split; [vm_compute; reflexivity|].
  eapply (route_idempotent mixedOffsets mixed). vm_compute. reflexivity.
Defined.

Lemma route_throws_iff_dangling_example :
  route ∅ (mkGraph [] (links crowded)) = None.
Proof. reflexivity. Qed.

Lemma routed_end_stays_on_edge_witness :
  exists g' l, route ∅ crowded = Some g' /\
    nodes g' !! 0%nat = Some (plainNode "a" 0 0 10 0 10) /\
    1%nat ∈ bucketOf ∅ (links g') 0 (Outgoing, Right) /\
    links g' !! 1%nat = Some l /\
    exists a, routedStart (plainNode "a" 0 0 10 0 10) (Outgoing, Right) l = Some a /\
      (linkWidth l <= edgeLengthOf (plainNode "a" 0 0 10 0 10) (Outgoing, Right) ->
         0 <= a /\
         a + linkWidth l <= edgeLengthOf (plainNode "a" 0 0 10 0 10) (Outgoing, Right)) /\
      (edgeLengthOf (plainNode "a" 0 0 10 0 10) (Outgoing, Right) < linkWidth l -> a == 0).
Proof.
  eexists. eexists.
  assert (Hr : route ∅ crowded = Some (default crowded (route ∅ crowded)))
    by (vm_compute; reflexivity).
  split; [exact Hr|].
  assert (Hn : nodes (default crowded (route ∅ crowded)) !! 0%nat
               = Some (plainNode "a" 0 0 10 0 10)) by reflexivity.
  split; [exact Hn|].
  assert (Hk : 1%nat ∈ bucketOf ∅ (links (default crowded (route ∅ crowded))) 0
                 (Outgoing, Right)) by (apply elem_of_bucketOf; reflexivity).
  split; [exact Hk|].
  assert (Hl : links (default crowded (route ∅ crowded)) !! 1%nat
               = Some (default (plainLink (plainNode "a" 0 0 10 0 10)
                                          (plainNode "a" 0 0 10 0 10) 0)
                         (links (default crowded (route ∅ crowded)) !! 1%nat)))
    by reflexivity.
  split; [exact Hl|].
  exact (routed_end_stays_on_edge ∅ crowded _ 0%nat _ (Outgoing, Right) 1%nat _
           Hr Hn Hk Hl).
Defined.

End RouteMoreWitnesses.

(** * The order of the links along an edge *)

Section OrderFacts.

Import Diagram Routing BucketOrder.

Lemma compareLinks_centres b la lb :
  compareLinks b la lb = otherCentre b la - otherCentre b lb.
Proof.
  unfold compareLinks, otherCentre. now destruct (isHorizontalEdge b).
Qed.

Lemma compareRefs_centres (L : list SankeyLink) b u v :
  is_Some (L !! u) -> is_Some (L !! v) ->
  compareRefs L b u v = centreAt L b u - centreAt L b v.
Proof.
  intros [lu Hu] [lv Hv]. unfold compareRefs, centreAt. rewrite Hu, Hv.
  apply compareLinks_centres.
Qed.

(** Insertion into a list in ascending order of [key] keeps it so, for
    a comparator that is the difference of the keys on the elements at
    hand. *)
Lemma sort_insert_sorted {A : Type} (cmp : A -> A -> Q) (key : A -> Q)
    (P : A -> Prop) a l :
  (forall u v, P u -> P v -> cmp u v = key u - key v) ->
  P a -> Forall P l ->
  StronglySorted (fun u v => key u <= key v) l ->
  StronglySorted (fun u v => key u <= key v) (JS.sort_insert cmp a l).
Proof.
  intros Hcmp Pa Pl Hs. induction Hs as [|b r Hs IH Hb]; simpl.
  - repeat constructor.
  - apply Forall_cons in Pl as [Pb Pr].
    destruct (Qle_bool (cmp a b) 0) eqn:E.
    + apply Qle_bool_iff in E. rewrite (Hcmp a b Pa Pb) in E.
      constructor; [now constructor|].
      constructor; [lra|].
      eapply Forall_impl; [exact Hb|]. intros c Hc. simpl in Hc. lra.
    + assert (Hlt : key b <= key a).
      { destruct (Qlt_le_dec (key a) (key b)) as [H|H]; [|exact H].
        assert (Qle_bool (cmp a b) 0 = true); [|congruence].
        apply Qle_bool_iff. rewrite (Hcmp a b Pa Pb). lra. }
      constructor; [now apply IH|].
      rewrite (sort_insert_perm cmp a r). constructor; [exact Hlt|exact Hb].
Qed.

Lemma sort_sorted {A : Type} (cmp : A -> A -> Q) (key : A -> Q)
    (P : A -> Prop) l :
  (forall u v, P u -> P v -> cmp u v = key u - key v) ->
  Forall P l ->
  StronglySorted (fun u v => key u <= key v) (JS.sort cmp l).
Proof.
  intros Hcmp Pl. induction l as [|a l IH]; simpl; [constructor|].
  apply Forall_cons in Pl as [Pa Pl].
  apply (sort_insert_sorted cmp key P); auto.
  now rewrite (sort_perm cmp l).
Qed.

Lemma sorted_before (key : nat -> Q) ks k1 k2 :
  StronglySorted (fun u v => key u <= key v) ks ->
  k1 ∈ ks -> k2 ∈ ks -> key k1 < key k2 -> k1 ∈ prefixBefore ks k2.
Proof.
  intros Hs. induction Hs as [|a r Hs IH Ha]; intros H1 H2 Hlt.
  - now apply elem_of_nil in H1.
  - simpl. destruct (Nat.eqb a k2) eqn:E.
    + apply Nat.eqb_eq in E. subst a.
      apply elem_of_cons in H1 as [->|H1]; [lra|].
      rewrite Forall_forall in Ha. specialize (Ha k1 H1). simpl in Ha. lra.
    + apply Nat.eqb_neq in E.
      apply elem_of_cons in H2 as [->|H2]; [contradiction|].
      apply elem_of_cons in H1 as [->|H1]; [apply list_elem_of_here|].
      apply list_elem_of_further. now apply IH.
Qed.

Lemma prefixBefore_ordered (L : list SankeyLink) ks k1 k2 :
  (forall j, j ∈ ks -> 0 <= widthAt L j) ->
  k1 ∈ prefixBefore ks k2 ->
  sumWidths L (prefixBefore ks k1) + widthAt L k1 <= sumWidths L (prefixBefore ks k2).
Proof.
  induction ks as [|a r IH]; intros Hw H1; simpl in *.
  - now apply elem_of_nil in H1.
  - assert (Hr : forall j, j ∈ r -> 0 <= widthAt L j)
      by (intros j Hj; apply Hw; now apply list_elem_of_further).
    destruct (Nat.eqb a k2) eqn:E2; [now apply elem_of_nil in H1|].
    destruct (Nat.eqb a k1) eqn:E1; simpl.
    + apply Nat.eqb_eq in E1. subst a.
      pose proof (prefixBefore_nonneg L r k2 Hr). lra.
    + apply Nat.eqb_neq in E1.
      apply elem_of_cons in H1 as [->|H1]; [contradiction|].
      pose proof (IH Hr H1). lra.
Qed.

(** In a bucket that fits its edge, a link end without a saved offset
    starts at the centred cursor plus the widths of the links sorted
    before it. *)
Lemma fitting_start offs g g' i node b k l :
  route offs g = Some g' ->
  nodes g' !! i = Some node ->
  bucketFits offs g' i node b ->
  k ∈ bucketOf offs (links g') i b ->
  links g' !! k = Some l ->
  manualPosOf offs b l = None ->
  exists a, routedStart node b l = Some a /\
    a == (edgeLengthOf node b
          - sumWidths (links g') (sortedBucket offs (links g') i b)) / 2
         + sumWidths (links g')
             (prefixBefore (sortedBucket offs (links g') i b) k).
Proof.
  intros Hr Hn [Hw Hfit] Hk Hl Hm.
  destruct (routed_start offs g g' i node b k l Hr Hn Hk Hl) as (a & Ha & E).
  exists a. split; [exact Ha|].
  rewrite edgeStart_laid in E. unfold laidStart in E. rewrite Hm in E.
  set (L := links g') in *. set (ks := sortedBucket offs L i b) in *.
  set (El := edgeLengthOf node b) in *.
  assert (Hperm : ks ≡ₚ bucketOf offs L i b) by apply sort_perm.
  assert (Hwk : forall j, j ∈ ks -> 0 <= widthAt L j).
  { intros j Hj. apply Hw. now rewrite <- Hperm. }
  assert (HS : sumWidths L ks <= El).
  { rewrite (sumWidths_perm L _ _ Hperm). exact Hfit. }
  assert (Hc0 : Qmax 0 ((El - sumWidths L ks) / 2) == (El - sumWidths L ks) / 2).
  { apply Q.max_r. rewrite half. lra. }
  assert (Hk' : k ∈ ks) by now rewrite Hperm.
  pose proof (prefixBefore_nonneg L ks k Hwk) as Hp.
  pose proof (prefixBefore_fits L ks k Hwk Hk') as Hq.
  rewrite (widthAt_lookup L k l Hl) in Hq.
  rewrite E. rewrite clamp_inside; rewrite Hc0; try reflexivity; rewrite half; lra.
Qed.

(** X10.  In a bucket that fits its edge, the links without a saved
    offset follow the order of their other endpoints: if the centre of
    the other endpoint of one link comes before that of another, the
    first link ends before the second starts. *)
Theorem routed_links_follow_other_ends (offs : LinkOffsets) (g g' : Graph)
    (i : nat) (node : SankeyNode) (b : BucketName) (k1 k2 : nat)
    (l1 l2 : SankeyLink) :
  route offs g = Some g' ->
  nodes g' !! i = Some node ->
  bucketFits offs g' i node b ->
  k1 ∈ bucketOf offs (links g') i b -> k2 ∈ bucketOf offs (links g') i b ->
  links g' !! k1 = Some l1 -> links g' !! k2 = Some l2 ->
  manualPosOf offs b l1 = None -> manualPosOf offs b l2 = None ->
  otherCentre b l1 < otherCentre b l2 ->
  exists a1 a2,
    routedStart node b l1 = Some a1 /\ routedStart node b l2 = Some a2 /\
    a1 + linkWidth l1 <= a2.
Proof.
  intros Hr Hn Hfit Hk1 Hk2 Hl1 Hl2 Hm1 Hm2 Hlt.
  destruct (fitting_start offs g g' i node b k1 l1 Hr Hn Hfit Hk1 Hl1 Hm1)
    as (a1 & Ha1 & E1).
  destruct (fitting_start offs g g' i node b k2 l2 Hr Hn Hfit Hk2 Hl2 Hm2)
    as (a2 & Ha2 & E2).
  exists a1, a2. split; [exact Ha1|]. split; [exact Ha2|].
  destruct Hfit as [Hw _].
  set (L := links g') in *. set (ks := sortedBucket offs L i b) in *.
  assert (Hperm : ks ≡ₚ bucketOf offs L i b) by apply sort_perm.
  assert (Hwk : forall j, j ∈ ks -> 0 <= widthAt L j).
  { intros j Hj. apply Hw. now rewrite <- Hperm. }
  assert (Hvalid : Forall (fun j => is_Some (L !! j)) (bucketOf offs L i b)).
  { apply Forall_forall. intros j Hj. apply lookup_lt_is_Some_2.
    now apply bucketOf_lt in Hj. }
  assert (Hsorted : StronglySorted (fun u v => centreAt L b u <= centreAt L b v) ks).
  { apply (sort_sorted _ _ (fun j => is_Some (L !! j))); [|exact Hvalid].
    intros u v Hu Hv. now apply compareRefs_centres. }
  assert (Hbefore : k1 ∈ prefixBefore ks k2).
  { apply (sorted_before (centreAt L b)); [exact Hsorted|now rewrite Hperm..|].
    unfold centreAt. now rewrite Hl1, Hl2. }
  pose proof (prefixBefore_ordered L ks k1 k2 Hwk Hbefore) as Ho.
  rewrite (widthAt_lookup L k1 l1 Hl1) in Ho.
  rewrite E1, E2. lra.
Qed.

End OrderFacts.

Section OrderWitness.

Import Diagram Routing BucketOrder.

Lemma routed_links_follow_other_ends_witness :
  let node := plainNode "a" 0 0 10 0 100 in
  let b := (Outgoing, Right) in
  route ∅ fan = Some fanRouted /\
  nodes fanRouted !! 0%nat = Some node /\
  bucketFits ∅ fanRouted 0 node b /\
  1%nat ∈ bucketOf ∅ (links fanRouted) 0 b /\
  2%nat ∈ bucketOf ∅ (links fanRouted) 0 b /\
  links fanRouted !! 1%nat = Some (fanLink 1) /\
  links fanRouted !! 2%nat = Some (fanLink 2) /\
  manualPosOf ∅ b (fanLink 1) = None /\ manualPosOf ∅ b (fanLink 2) = None /\
  otherCentre b (fanLink 1) < otherCentre b (fanLink 2) /\
  exists a1 a2,
    routedStart node b (fanLink 1) = Some a1 /\
    routedStart node b (fanLink 2) = Some a2 /\
    a1 + linkWidth (fanLink 1) <= a2.
Proof.
  intros node b.
  assert (Hr : route ∅ fan = Some fanRouted) by (vm_compute; reflexivity).
  assert (Hn : nodes fanRouted !! 0%nat = Some node) by reflexivity.
  assert (Hfit : bucketFits ∅ fanRouted 0 node b).
  { split.
    - intros k Hk. apply elem_of_bucketOf in Hk.
      destruct k as [|[|[|k]]]; vm_compute; discriminate.
    - vm_compute. discriminate. }
  assert (Hk1 : 1%nat ∈ bucketOf ∅ (links fanRouted) 0 b)
    by (apply elem_of_bucketOf; reflexivity).
  assert (Hk2 : 2%nat ∈ bucketOf ∅ (links fanRouted) 0 b)
    by (apply elem_of_bucketOf; reflexivity).
  assert (Hl1 : links fanRouted !! 1%nat = Some (fanLink 1)) by reflexivity.
  assert (Hl2 : links fanRouted !! 2%nat = Some (fanLink 2)) by reflexivity.
  assert (Hm1 : manualPosOf ∅ b (fanLink 1) = None) by reflexivity.
  assert (Hm2 : manualPosOf ∅ b (fanLink 2) = None) by reflexivity.
  assert (Hlt : otherCentre b (fanLink 1) < otherCentre b (fanLink 2))
    by (vm_compute; reflexivity).
  repeat (split; [assumption|]).
  exact (routed_links_follow_other_ends ∅ fan fanRouted 0%nat node b 1%nat 2%nat
           (fanLink 1) (fanLink 2) Hr Hn Hfit Hk1 Hk2 Hl1 Hl2 Hm1 Hm2 Hlt).
Defined.

End OrderWitness.

(** * Live update and node interactions *)

Section NodeInteractions.

Import Diagram Routing Interaction.


Lemma routed_sides (offs : LinkOffsets) g g' k l' :
  route offs g = Some g' -> links g' !! k = Some l' ->
  exists cs ct, sourceCoords l' = Some cs /\ targetCoords l' = Some ct /\
    side cs = sourceSideOf offs l' /\ side ct = targetSideOf offs l'.
Proof.
  intros Hr Hl'.
  pose proof (route_geomEq offs g g' Hr) as Hg.
  pose proof (route_spec offs g g' Hr) as (_ & _ & _ & Hlk).
  destruct (geomEq_lookup_Some _ _ k l' Hg Hl') as (l & Hl & Hgl).
  destruct (Hlk k l Hl) as (ns & nt & _ & _ & E). rewrite Hl' in E.
  injection E as ->.
  rewrite (sourceSideOf_geom offs _ l Hgl), (targetSideOf_geom offs _ l Hgl).
  unfold routedLink, endCoords. cbn [sourceCoords targetCoords].
  do 2 eexists. split; [reflexivity|]. split; [reflexivity|].
  unfold edgePoint, sourceBucket, targetBucket. cbn [snd].
  split; [destruct (sourceSideOf offs l)|destruct (targetSideOf offs l)]; reflexivity.
Qed.

(** X12.  A change of the node width never moves a link to another
    side: the graph is routed after the change exactly when it was
    before, and each link attaches to the same two sides. *)
Theorem liveUpdate_keeps_sides (offs : LinkOffsets)
    (settings : VisualizationSettings) (g g1 r1 : Graph) :
  liveUpdate settings (Some g) = Some g1 ->
  route offs g1 = Some r1 ->
  exists r, route offs g = Some r /\
    Forall2 (fun l1 l =>
               (side <$> sourceCoords l1) = (side <$> sourceCoords l) /\
               (side <$> targetCoords l1) = (side <$> targetCoords l))
            (links r1) (links r).
Proof.
  intros Hu Hr1. injection Hu as <-.
  pose proof (route_spec offs _ r1 Hr1) as (Hw1 & _ & Hlen1 & _).
  assert (Hw : wellLinked g).
  { intros k l Hl. specialize (Hw1 k l Hl). simpl in Hw1.
    now rewrite length_map in Hw1. }
  destruct (route_wellLinked offs g Hw) as [r Hr]. exists r. split; [exact Hr|].
  pose proof (route_spec offs g r Hr) as (_ & _ & Hlen & _).
  apply Forall2_same_length_lookup. split; [simpl in Hlen1; congruence|].
  intros k l1 l Hl1 Hl.
  destruct (routed_sides offs _ r1 k l1 Hr1 Hl1) as (cs1 & ct1 & -> & -> & Es1 & Et1).
  destruct (routed_sides offs g r k l Hr Hl) as (cs & ct & -> & -> & Es & Et).
  simpl. rewrite Es1, Et1, Es, Et.
  pose proof (route_geomEq offs _ r1 Hr1) as Hg1. simpl in Hg1.
  pose proof (route_geomEq offs g r Hr) as Hg.
  assert (Hgl : geom l1 = geom l).
  { pose proof (geomEq_lookup _ _ k (geomEq_trans _ _ _ Hg1 (geomEq_sym _ _ Hg))) as E.
    rewrite Hl1, Hl in E. simpl in E. congruence. }
  now rewrite (sourceSideOf_geom offs _ _ Hgl), (targetSideOf_geom offs _ _ Hgl).
Qed.



(** X15.  Resizing keeps the top-left corner and gives a node at least
    10 wide and 10 high; when the corner leaves room for that, the
    node ends inside the canvas. *)
Theorem dragResize_min_size (width height pointerX pointerY : Q) (d : SankeyNode) :
  let d' := dragResize width height pointerX pointerY d in
  x0 d' = x0 d /\ y0 d' = y0 d /\
  10 <= x1 d' - x0 d' /\ 10 <= y1 d' - y0 d' /\
  (0 <= width -> x0 d + 10 <= width -> x1 d' <= width) /\
  (0 <= height -> y0 d + 10 <= height -> y1 d' <= height).
Proof.
  unfold dragResize. simpl.
  split; [reflexivity|]. split; [reflexivity|].
  split.
  { match goal with |- _ <= _ + Qmax 10 ?a - _ => pose proof (Q.le_max_l 10 a) end. lra. }
  split.
  { match goal with |- _ <= _ + Qmax 10 ?a - _ => pose proof (Q.le_max_l 10 a) end. lra. }
  split; intros H0 Hroom.
  - match goal with
    | |- _ + Qmax 10 (Qmax 0 (Qmin ?w ?p) - ?o) <= _ =>
        assert (Hm : Qmax 0 (Qmin w p) <= w)
          by (apply Q.max_lub; [lra|apply Q.le_min_l]);
        assert (Qmax 10 (Qmax 0 (Qmin w p) - o) <= w - o)
          by (apply Q.max_lub; lra)
    end. lra.
  - match goal with
    | |- _ + Qmax 10 (Qmax 0 (Qmin ?w ?p) - ?o) <= _ =>
        assert (Hm : Qmax 0 (Qmin w p) <= w)
          by (apply Q.max_lub; [lra|apply Q.le_min_l]);
        assert (Qmax 10 (Qmax 0 (Qmin w p) - o) <= w - o)
          by (apply Q.max_lub; lra)
    end. lra.
Qed.

End NodeInteractions.

Section NodeInteractionWitnesses.

Import Diagram Routing Interaction Reference.

Lemma liveUpdate_keeps_sides_witness :
  exists g1 r1,
    liveUpdate defaultSettings (Some mixed) = Some g1 /\
    route mixedOffsets g1 = Some r1 /\
    exists r, route mixedOffsets mixed = Some r /\
      Forall2 (fun l1 l =>
                 (side <$> sourceCoords l1) = (side <$> sourceCoords l) /\
                 (side <$> targetCoords l1) = (side <$> targetCoords l))
              (links r1) (links r).
Proof.
  eexists. eexists.
  assert (Hu : liveUpdate defaultSettings (Some mixed)
               = Some (default mixed (liveUpdate defaultSettings (Some mixed))))
    by reflexivity.
  split; [exact Hu|].
  assert (Hr : route mixedOffsets (default mixed (liveUpdate defaultSettings (Some mixed)))
               = Some (default mixed
                         (route mixedOffsets
                            (default mixed (liveUpdate defaultSettings (Some mixed))))))
    by (vm_compute; reflexivity).
  split; [exact Hr|].
  exact (liveUpdate_keeps_sides mixedOffsets defaultSettings mixed _ _ Hu Hr).
Defined.

End NodeInteractionWitnesses.

(** * Link handles, saving and restoring *)

Section HandleFacts.

Import Diagram Routing Interaction.

Lemma clamp01_range p len : 0 <= len -> 0 <= Qmax 0 (Qmin p len) /\ Qmax 0 (Qmin p len) <= len.
Proof.
  intros H. split; [apply Q.le_max_l|].
  apply Q.max_lub; [exact H|apply Q.le_min_r].
Qed.

(** X16.  Dragging a link handle writes the entry of that link only:
    the dragged end gets the new side and offset, the other end keeps
    what was saved for it, and every other link keeps its entry.  The
    side is left or right exactly for a node taller than wide, and the
    offset lies on the edge of that side. *)
Theorem dragLinkHandle_writes_one_end (mouseX mouseY : Q) (link : SankeyLink)
    (type : HandleType) (prev : LinkOffsets) :
  let node := handleNode link type in
  let newSide := newSideOf mouseX mouseY node in
  let newOffset := newOffsetOf mouseX mouseY node in
  let next := dragLinkHandle mouseX mouseY link type prev in
  let old := prev !! getLinkKey link in
  (forall key, key <> getLinkKey link -> next !! key = prev !! key) /\
  (exists e, next !! getLinkKey link = Some e /\
     match type with
     | SourceHandle =>
         sourceSide e = Some newSide /\ sourceOffset e = Some newOffset /\
         targetSide e = savedSide old targetSide /\
         targetOffset e = savedOffsetOf old targetOffset
     | TargetHandle =>
         targetSide e = Some newSide /\ targetOffset e = Some newOffset /\
         sourceSide e = savedSide old sourceSide /\
         sourceOffset e = savedOffsetOf old sourceOffset
     end) /\
  (isHorizontalEdge (Outgoing, newSide) = false <->
     y1 node - y0 node > x1 node - x0 node) /\
  (x0 node <= x1 node -> y0 node <= y1 node ->
     0 <= newOffset /\ newOffset <= edgeLengthOf node (Outgoing, newSide)).
Proof.
  intros node newSide newOffset next old. split; [|split; [|split]].
  - intros key Hne. unfold next, dragLinkHandle. now rewrite lookup_insert_ne.
  - unfold next, dragLinkHandle. rewrite lookup_insert_eq.
    eexists. split; [reflexivity|]. destruct type; simpl; auto.
  - unfold newSide, newSideOf, isHorizontalEdge. cbn [snd].
    destruct (JS.gt (y1 node - y0 node) (x1 node - x0 node)) eqn:E.
    + apply gt_spec in E.
      destruct (JS.lt mouseX (x0 node + (x1 node - x0 node) / 2)); tauto.
    + apply lt_false in E.
      destruct (JS.lt mouseY (y0 node + (y1 node - y0 node) / 2));
        (split; [discriminate|intros H; exfalso; lra]).
  - intros Hx Hy. unfold newOffset, newOffsetOf, edgeLengthOf, isHorizontalEdge.
    fold newSide. cbn [snd].
    destruct newSide; apply clamp01_range; lra.
Qed.

(** X17.  A link end dragged to a side and offset, saved with the
    layout and restored from it, is routed in any rebuilt graph that has
    a link with the same key: the end attaches to the dragged side, and
    is centred on the dragged offset, clamped to the edge. *)
Theorem dragged_end_survives_save (mouseX mouseY : Q) (link : SankeyLink)
    (prev stale : LinkOffsets) (g1 : Graph) (sl : SavedLayoutMap.t)
    (g2 r2 : Graph) (k : nat) (l2 : SankeyLink) (node : SankeyNode) :
  let newSide := newSideOf mouseX mouseY (source link) in
  let newOffset := newOffsetOf mouseX mouseY (source link) in
  handleSaveClick (Some g1) (dragLinkHandle mouseX mouseY link SourceHandle prev)
    = Some sl ->
  route (initLinkOffsets (Some sl) stale) g2 = Some r2 ->
  links r2 !! k = Some l2 ->
  getLinkKey l2 = getLinkKey link ->
  nodes r2 !! index (source l2) = Some node ->
  exists c a,
    sourceCoords l2 = Some c /\ side c = newSide /\
    routedStart node (Outgoing, newSide) l2 = Some a /\
    a == clamp (newOffset - linkWidth l2 / 2)
               (edgeLengthOf node (Outgoing, newSide)) (linkWidth l2).
Proof.
  intros newSide newOffset Hsave Hr Hl2 Hkey Hn.
  injection Hsave as <-. simpl in Hr.
  set (offs := dragLinkHandle mouseX mouseY link SourceHandle prev) in *.
  assert (He : offs !! getLinkKey l2 =
               Some (mkSavedLink (Some newOffset)
                       (savedOffsetOf (prev !! getLinkKey link) targetOffset)
                       (Some newSide)
                       (savedSide (prev !! getLinkKey link) targetSide))).
  { rewrite Hkey. unfold offs, dragLinkHandle. now rewrite lookup_insert_eq. }
  assert (Hside : sourceSideOf offs l2 = newSide).
  { unfold sourceSideOf. now rewrite He. }
  assert (Hman : manualPosOf offs (Outgoing, newSide) l2 = Some newOffset).
  { unfold manualPosOf. now rewrite He. }
  destruct (routed_sides offs g2 r2 k l2 Hr Hl2) as (cs & ct & Hcs & _ & Es & _).
  assert (Hk : k ∈ bucketOf offs (links r2) (index (source l2)) (Outgoing, newSide)).
  { apply elem_of_bucketOf. rewrite (member_lookup offs _ _ _ k l2 Hl2).
    apply memberLink_source. auto. }
  destruct (routed_start offs g2 r2 _ node _ k l2 Hr Hn Hk Hl2) as (a & Ha & E).
  exists cs, a. split; [exact Hcs|]. split; [congruence|]. split; [exact Ha|].
  rewrite E, edgeStart_laid. unfold laidStart. rewrite Hman. reflexivity.
Qed.

(** X18.  For two attachments on opposite sides, the label point of the
    curve is the midpoint of the two attachment points, whatever the
    distance between them. *)
Theorem getMidPoint_opposite_sides (dist : Q) (s t : Attachment) :
  opposite (aside s) (aside t) = true ->
  fst (getMidPoint dist s t) == (ax s + ax t) / 2 /\
  snd (getMidPoint dist s t) == (ay s + ay t) / 2.
Proof.
  unfold getMidPoint, getControlPoints, opposite.
  destruct (aside s), (aside t); intros H; try discriminate H; simpl; split; field.
Qed.

End HandleFacts.

Section HandleWitnesses.

Import Diagram Routing Interaction.

Lemma dragged_end_survives_save_witness :
  let link := plainLink (plainNode "a" 0 0 10 0 100) (plainNode "b" 1 200 210 0 10) 10 in
  let node := plainNode "a" 0 0 10 0 100 in
  exists sl r2 l2,
    handleSaveClick (Some mixed) (dragLinkHandle 20 30 link SourceHandle ∅) = Some sl /\
    route (initLinkOffsets (Some sl) mixedOffsets) mixed = Some r2 /\
    links r2 !! 0%nat = Some l2 /\
    getLinkKey l2 = getLinkKey link /\
    nodes r2 !! index (source l2) = Some node /\
    exists c a,
      sourceCoords l2 = Some c /\ side c = newSideOf 20 30 (source link) /\
      routedStart node (Outgoing, newSideOf 20 30 (source link)) l2 = Some a /\
      a == clamp (newOffsetOf 20 30 (source link) - linkWidth l2 / 2)
                 (edgeLengthOf node (Outgoing, newSideOf 20 30 (source link)))
                 (linkWidth l2).
Proof.
  intros link node.
  set (offs := dragLinkHandle 20 30 link SourceHandle ∅).
  set (sl := SavedLayoutMap.mk (foldl saveNode ∅ (nodes mixed)) offs).
  set (r2 := default mixed (route (initLinkOffsets (Some sl) mixedOffsets) mixed)).
  set (l2 := default link (links r2 !! 0%nat)).
  exists sl, r2, l2.
  assert (Hs : handleSaveClick (Some mixed) offs = Some sl) by reflexivity.
  assert (Hr : route (initLinkOffsets (Some sl) mixedOffsets) mixed = Some r2)
    by (vm_compute; reflexivity).
  assert (Hl : links r2 !! 0%nat = Some l2) by (vm_compute; reflexivity).
  assert (Hk : getLinkKey l2 = getLinkKey link) by (vm_compute; reflexivity).
  assert (Hn : nodes r2 !! index (source l2) = Some node) by (vm_compute; reflexivity).
  repeat (split; [assumption|]).
  exact (dragged_end_survives_save 20 30 link ∅ mixedOffsets mixed sl mixed r2
           0%nat l2 node Hs Hr Hl Hk Hn).
Defined.

Lemma getMidPoint_opposite_sides_witness :
  let s := mkAttachment 475 350 Right in
  let t := mkAttachment 650 300 Left in
  opposite (aside s) (aside t) = true /\
  fst (getMidPoint 91 s t) == (ax s + ax t) / 2 /\
  snd (getMidPoint 91 s t) == (ay s + ay t) / 2.
Proof.
  split; [reflexivity|].
  apply (getMidPoint_opposite_sides 91 (mkAttachment 475 350 Right)
           (mkAttachment 650 300 Left)).
  reflexivity.
Defined.

End HandleWitnesses.

(** * More on the layout effect and the saved layout *)

Section LayoutMore.

Import Diagram Reference Interaction.



Lemma applySaved_id savedNodes n : id (applySaved savedNodes n) = id n.
Proof. unfold applySaved. now destruct (savedNodes !! id n). Qed.

Lemma applySaved_idem savedNodes n :
  applySaved savedNodes (applySaved savedNodes n) = applySaved savedNodes n.
Proof.
  unfold applySaved at 1. rewrite applySaved_id.
  unfold applySaved. destruct (savedNodes !! id n) as [s|] eqn:E; [reflexivity|].
  reflexivity.
Qed.

Lemma forEachNode_idem f g :
  (forall n, f (f n) = f n) -> forEachNode f (forEachNode f g) = forEachNode f g.
Proof.
  intros Hf. unfold forEachNode. simpl. f_equal.
  - rewrite map_map. apply map_ext. intros n. apply Hf.
  - rewrite map_map. apply map_ext. intros l. simpl. now rewrite !Hf.
Qed.

(** X20.  On a rebuilt graph, whatever geometry the generic layout
    gave it, every node with a saved entry gets exactly the saved
    rectangle and rotation flag; applying the saved layout a second
    time changes nothing. *)
Theorem saved_layout_restores (width height : Q) (sl : SavedLayoutMap.t)
    (generated : Graph) :
  (forall j n s, nodes generated !! j = Some n ->
     SavedLayoutMap.nodes sl !! id n = Some s ->
     exists n', nodes (layoutNodes width height (Some sl) generated) !! j = Some n' /\
       id n' = id n /\
       rectangle n' = (SavedNodeLayout.x0 s, SavedNodeLayout.x1 s,
                       SavedNodeLayout.y0 s, SavedNodeLayout.y1 s,
                       SavedNodeLayout.isRotated s)) /\
  layoutNodes width height (Some sl)
              (layoutNodes width height (Some sl) generated)
  = layoutNodes width height (Some sl) generated.
Proof.
  split.
  - intros j n s Hn Hs. exists (applySaved (SavedLayoutMap.nodes sl) n).
    split; [|split].
    + unfold layoutNodes. rewrite nodes_forEachNode.
      change (map ?f ?l) with (f <$> l). now rewrite list_lookup_fmap, Hn.
    + apply applySaved_id.
    + now apply applySaved_present.
  - unfold layoutNodes. apply forEachNode_idem. apply applySaved_idem.
Qed.

Lemma foldl_saveNode_dom (ns : list SankeyNode) : forall m i,
  is_Some (foldl saveNode m ns !! i) <-> is_Some (m !! i) \/ i ∈ id <$> ns.
Proof.
  induction ns as [|n ns IH]; intros m i; cbn [foldl].
  - rewrite fmap_nil, elem_of_nil. tauto.
  - rewrite IH, fmap_cons, elem_of_cons. unfold saveNode.
    destruct (decide (id n = i)) as [<-|Hne].
    + rewrite lookup_insert_eq. split; [auto|]. intros _. left. eauto.
    + rewrite lookup_insert_ne by exact Hne. split.
      * intros [H|H]; auto.
      * intros [H|[H|H]]; auto. congruence.
Qed.

(** X21.  Saving is a snapshot of the graph at hand: without a graph
    nothing is saved; with one, the saved layout has an entry for
    exactly the node ids of that graph, and its link table is the
    link-offset table in memory. *)
Theorem save_is_snapshot (linkOffsets : LinkOffsets) :
  handleSaveClick None linkOffsets = None /\
  forall g, exists sl,
    handleSaveClick (Some g) linkOffsets = Some sl /\
    SavedLayoutMap.links sl = linkOffsets /\
    forall i, is_Some (SavedLayoutMap.nodes sl !! i) <-> i ∈ id <$> nodes g.
Proof.
  split; [reflexivity|]. intros g. eexists. split; [reflexivity|].
  split; [reflexivity|]. intros i. simpl. rewrite foldl_saveNode_dom.
  rewrite lookup_empty. split; [|auto].
  intros [[x H]|H]; [discriminate|exact H].
Qed.

(** X22.  The layout step, with or without a saved layout, renames and
    renumbers no node and changes no flow: node ids and indices are
    those of the generic layout, and the links keep their value, real
    value, type, width and attachment records. *)
Theorem layout_moves_nodes_only (width height : Q)
    (savedLayout : option SavedLayoutMap.t) (generated : Graph) :
  let g := layoutNodes width height savedLayout generated in
  id <$> nodes g = id <$> nodes generated /\
  index <$> nodes g = index <$> nodes generated /\
  Forall2 (fun l' l =>
             id (source l') = id (source l) /\ id (target l') = id (target l) /\
             index (source l') = index (source l) /\
             index (target l') = index (target l) /\
             value l' = value l /\ realValue l' = realValue l /\
             type l' = type l /\ Diagram.width l' = Diagram.width l /\
             sourceCoords l' = sourceCoords l /\ targetCoords l' = targetCoords l)
          (links g) (links generated).
Proof.
  assert (Hgen : forall f : SankeyNode -> SankeyNode,
            (forall n, id (f n) = id n /\ index (f n) = index n) ->
            id <$> nodes (forEachNode f generated) = id <$> nodes generated /\
            index <$> nodes (forEachNode f generated) = index <$> nodes generated /\
            Forall2 (fun l' l =>
               id (source l') = id (source l) /\ id (target l') = id (target l) /\
               index (source l') = index (source l) /\
               index (target l') = index (target l) /\
               value l' = value l /\ realValue l' = realValue l /\
               type l' = type l /\ Diagram.width l' = Diagram.width l /\
               sourceCoords l' = sourceCoords l /\ targetCoords l' = targetCoords l)
              (links (forEachNode f generated)) (links generated)).
  { intros f Hf. unfold forEachNode. simpl.
    change (map ?f ?l) with (f <$> l).
    split; [|split].
    - rewrite <- list_fmap_compose. apply list_fmap_ext. intros ? n _. apply Hf.
    - rewrite <- list_fmap_compose. apply list_fmap_ext. intros ? n _. apply Hf.
    - induction (links generated) as [|l ls IH]; simpl; constructor; [|exact IH].
      simpl. destruct (Hf (source l)), (Hf (target l)). auto 12. }
  unfold layoutNodes. destruct savedLayout as [sl|]; apply Hgen; intros n.
  - split; [apply applySaved_id|]. unfold applySaved.
    now destruct (SavedLayoutMap.nodes sl !! id n).
  - split; [apply defaultLayout_id|]. unfold defaultLayout, place.
    repeat match goal with
           | |- context [String.eqb ?a ?b] => destruct (String.eqb a b)
           end; reflexivity.
Qed.

End LayoutMore.

(** * Sides between columns *)

Section ColumnSides.

Import Diagram Routing Interaction.



End ColumnSides.
